(** * Layout synthesis of the network-topology diagram

    A shallow embedding of [src/hooks/useNetworkData.ts]: the depth
    calculator [calculateMaxNetworkDepth], the container sizer
    [calculateGroupSize] and the body of the effect of [useNetworkData],
    which turns the declaration of [network-config.json] into the node
    list and the edge list handed to the canvas.

    Conventions of the embedding.
    - JavaScript numbers are computed with as exact rationals ([Q]);
      counts, indices and nesting levels are [nat].
    - JavaScript objects used as dictionaries are [gmap string _]
      (own properties only); [Set<string>] is [gset string]; the
      declaration's [private] object is the list of its entries in the
      order [Object.entries] yields them.
    - [processedNodes] and [processedEdges] are lists; a reference to a
      node object held elsewhere ([networkNodes], the result of a
      [find]) is the index of that node in [processedNodes], which only
      ever grows, and a write through the reference is an update at
      that index.
    - Of a node and an edge the fields are kept that the synthesis reads
      back or that the properties below speak of; the remaining
      presentation-only literals (label paddings, z-index, CSS class
      names, stroke widths) are left out. *)

From Stdlib Require Import Ascii String QArith Qminmax Qround Lqa.
From stdpp Require Import gmap strings list fin_maps pretty.

#[local] Set Warnings "-clear-no-such-hyp".

Open Scope string_scope.
Open Scope list_scope.
Open Scope nat_scope.

(** ** JavaScript string operations *)

(** [hay.includes(needle)] *)
Fixpoint includes (hay needle : string) : bool :=
  String.prefix needle hay ||
  match hay with
  | EmptyString => false
  | String _ hay' => includes hay' needle
  end.

(** [s.endsWith(suffix)] *)
Fixpoint endsWith (s suffix : string) : bool :=
  String.eqb s suffix ||
  match s with
  | EmptyString => false
  | String _ s' => endsWith s' suffix
  end.

(** [s.replace(from, to)] with a one-character pattern: the first
    occurrence only. *)
Fixpoint replace (s : string) (from to : Ascii.ascii) : string :=
  match s with
  | EmptyString => EmptyString
  | String c s' =>
      if Ascii.eqb c from then String to s' else String c (replace s' from to)
  end.

(** [Array.prototype.join] *)
Fixpoint join (sep : string) (l : list string) : string :=
  match l with
  | [] => ""
  | [x] => x
  | x :: l' => x +:+ sep +:+ join sep l'
  end.

(** Truthiness of a string: the empty string is falsy. *)
Definition truthy (s : string) : bool := negb (String.eqb s "").

(** [a || b] on a possibly missing string. *)
Definition orElse (a : option string) (b : string) : string :=
  match a with
  | Some s => if truthy s then s else b
  | None => b
  end.

(** ** Numbers *)

Definition num (n : nat) : Q := inject_Z (Z.of_nat n).

(** ** The declaration (input) *)

Inductive Target :=
| TargetName (t : string)
| TargetList (ts : list string).

(** [String(target)], the coercion applied when a target is spliced
    into a template string or used as a property key. *)
Definition targetString (t : Target) : string :=
  match t with
  | TargetName s => s
  | TargetList l => join "," l
  end.

Record DiversionConfig := {
  target : Target;
  target_type : string;
  traffic_type : string;
  internet_type : option string;
  dlabel : option string
}.

Record Interface := {
  if_name : string;
  if_type : string;
  if_ip : string
}.

Record Device := {
  dev_name : string;
  dev_ip : string;
  dev_interface : option string;
  dev_interfaces : option (list Interface);
  dev_diversion : option DiversionConfig
}.

Record Gateway := {
  gw_name : string;
  gw_ip : string;
  gw_interfaces : option (list Interface);
  gw_diversion : option DiversionConfig
}.

Record PrivateNetwork := {
  subnet : string;
  gateway : option Gateway;
  devices : option (list Device)
}.

Record AutonomousSystem := {
  as_number : string;
  network_type : option string;
  as_devices : list Device
}.

Record NetworkConfig := {
  autonomous_systems : list AutonomousSystem;
  private : list (string * PrivateNetwork)
}.

(** ** Depth calculator *)

(** [Math.max(...xs)] on a non-empty list of naturals. *)
Definition mathMax (xs : list nat) : nat := foldr Nat.max 0 xs.

(** [calculateMaxNetworkDepth]; the recursion of the source is not
    structural, so it is driven by [fuel], and [None] stands for the
    recursion not having returned within it. *)
Fixpoint calculateMaxNetworkDepth (fuel : nat) (networkName : string)
    (childNetworksMap : gmap string (list string)) : option nat :=
  match fuel with
  | O => None
  | S fuel' =>
      match childNetworksMap !! networkName with
      | None | Some [] => Some 0
      | Some children =>
          childDepths ← mapM (λ childName,
            S <$> calculateMaxNetworkDepth fuel' childName childNetworksMap) children;
          Some (mathMax childDepths)
      end
  end.


(** ** Container sizer *)

Record Size := { width : Q; height : Q }.

Definition devicesPerRow (deviceCount : nat) : nat :=
  Nat.max 2 (Nat.min 4 deviceCount).

Definition gridRows (deviceCount : nat) : Z :=
  Qceiling (num deviceCount / num (devicesPerRow deviceCount))%Q.

Definition gridCols (deviceCount : nat) : nat :=
  Nat.min (devicesPerRow deviceCount) deviceCount.

Definition baseWidth (isAS : bool) : Q := (if isAS then 300 else 400)%Q.
Definition baseHeight (isAS : bool) : Q := (if isAS then 250 else 400)%Q.
Definition widthPerDevice (isAS : bool) : Q := (if isAS then 130 else 180)%Q.
Definition heightPerDevice (isAS : bool) : Q := (if isAS then 140 else 100)%Q.
Definition verticalMargin (isAS : bool) : Q := (if isAS then 100 else 220)%Q.

Definition calculateGroupSize (deviceCount : nat) (hasSubnetworks : bool)
    (level maxSubnetDepth : nat) (isAS : bool) : Size := (
  let rows := gridRows deviceCount in
  let cols := gridCols deviceCount in
  let width := Qmax (baseWidth isAS) ((num cols + 2) * widthPerDevice isAS) in
  let height :=
    Qmax (baseHeight isAS) (inject_Z rows * heightPerDevice isAS + verticalMargin isAS) in
  let '(width, height) :=
    if hasSubnetworks then
      let depthFactor :=
        if isAS then 1.3 + num maxSubnetDepth * 0.2
        else 1.4 + num maxSubnetDepth * 0.3 in
      (Qmax (width * 1.2) (if isAS then 500 else 600),
       Qmax (height * depthFactor)
            ((if isAS then 350 else 600) + num maxSubnetDepth * 150))
    else (width, height) in
  let '(width, height) :=
    if (0 <? level)%nat then
      let levelFactor := Qmax 0.85 (1 - num level * 0.08) in
      (width * levelFactor, height * Qmax 0.9 (1 - num level * 0.05))
    else (width, height) in
  {| width := width; height := height |})%Q.

(** ** Nodes and edges (output) *)

Inductive NodeType := cloudNode | group | deviceNode | routerNode.

Record NodeData := {
  label : string;
  diversion : option DiversionConfig;
  isCdnOrigin : bool;
  isCdnEdge : bool
}.

Record Node := {
  n_id : string;
  n_type : NodeType;
  n_data : NodeData;
  n_position : Q * Q;
  n_style : option Size;
  n_parentId : option string;
  n_extent : option string
}.

Inductive EdgeType := bezier | straight.

Record EdgeStyle := {
  stroke : string;
  strokeDasharray : option string
}.

Record Edge := {
  e_id : string;
  e_source : string;
  e_sourceHandle : option string;
  e_target : string;
  e_targetHandle : option string;
  e_animated : bool;
  e_type : EdgeType;
  e_style : EdgeStyle;
  e_label : option string
}.

Definition mkData (l : string) (d : option DiversionConfig) : NodeData :=
  {| label := l; diversion := d; isCdnOrigin := false; isCdnEdge := false |}.

Definition plain (color : string) : EdgeStyle :=
  {| stroke := color; strokeDasharray := None |}.

Definition dashed (color dash : string) : EdgeStyle :=
  {| stroke := color; strokeDasharray := Some dash |}.

(** Writes through a node reference. *)
Definition setPosition (p : Q * Q) (n : Node) : Node :=
  {| n_id := n_id n; n_type := n_type n; n_data := n_data n; n_position := p;
     n_style := n_style n; n_parentId := n_parentId n; n_extent := n_extent n |}.

Definition setStyle (s : option Size) (n : Node) : Node :=
  {| n_id := n_id n; n_type := n_type n; n_data := n_data n;
     n_position := n_position n; n_style := s; n_parentId := n_parentId n;
     n_extent := n_extent n |}.

Definition setParent (p : string) (n : Node) : Node :=
  {| n_id := n_id n; n_type := n_type n; n_data := n_data n;
     n_position := n_position n; n_style := n_style n; n_parentId := Some p;
     n_extent := Some "parent" |}.

Definition setData (d : NodeData) (n : Node) : Node :=
  {| n_id := n_id n; n_type := n_type n; n_data := d;
     n_position := n_position n; n_style := n_style n;
     n_parentId := n_parentId n; n_extent := n_extent n |}.

(** [node.data.isCdnOrigin = true] *)
Definition markCdnOrigin (n : Node) : Node :=
  setData {| label := label (n_data n); diversion := diversion (n_data n);
             isCdnOrigin := true; isCdnEdge := isCdnEdge (n_data n) |} n.

(** [node.data.isCdnEdge = true] *)
Definition markCdnEdge (n : Node) : Node :=
  setData {| label := label (n_data n); diversion := diversion (n_data n);
             isCdnOrigin := isCdnOrigin (n_data n); isCdnEdge := true |} n.

(** ** The synthesis context

    The variables the closures of the effect share. *)

Record RouterDiversion := {
  routerId : string;
  targetName : option string;
  rd_diversion : DiversionConfig
}.

Record Ctx := {
  processedNodes : list Node;
  processedEdges : list Edge;
  handledExternalDiversionDevices : gset string;
  routerDiversions : list RouterDiversion;
  nodeIdMap : gmap string string;
  networkNodes : gmap string nat;
  routerIds : gset string;
  gatewayIdByNetwork : gmap string string;
  networkStartX : Q
}.

Definition withNodes (f : list Node → list Node) (c : Ctx) : Ctx :=
  {| processedNodes := f (processedNodes c);
     processedEdges := processedEdges c;
     handledExternalDiversionDevices := handledExternalDiversionDevices c;
     routerDiversions := routerDiversions c;
     nodeIdMap := nodeIdMap c;
     networkNodes := networkNodes c;
     routerIds := routerIds c;
     gatewayIdByNetwork := gatewayIdByNetwork c;
     networkStartX := networkStartX c |}.

Definition withEdges (f : list Edge → list Edge) (c : Ctx) : Ctx :=
  {| processedNodes := processedNodes c;
     processedEdges := f (processedEdges c);
     handledExternalDiversionDevices := handledExternalDiversionDevices c;
     routerDiversions := routerDiversions c;
     nodeIdMap := nodeIdMap c;
     networkNodes := networkNodes c;
     routerIds := routerIds c;
     gatewayIdByNetwork := gatewayIdByNetwork c;
     networkStartX := networkStartX c |}.

Definition withHandled (f : gset string → gset string) (c : Ctx) : Ctx :=
  {| processedNodes := processedNodes c;
     processedEdges := processedEdges c;
     handledExternalDiversionDevices := f (handledExternalDiversionDevices c);
     routerDiversions := routerDiversions c;
     nodeIdMap := nodeIdMap c;
     networkNodes := networkNodes c;
     routerIds := routerIds c;
     gatewayIdByNetwork := gatewayIdByNetwork c;
     networkStartX := networkStartX c |}.

Definition withRouterDiversions (f : list RouterDiversion → list RouterDiversion)
    (c : Ctx) : Ctx :=
  {| processedNodes := processedNodes c;
     processedEdges := processedEdges c;
     handledExternalDiversionDevices := handledExternalDiversionDevices c;
     routerDiversions := f (routerDiversions c);
     nodeIdMap := nodeIdMap c;
     networkNodes := networkNodes c;
     routerIds := routerIds c;
     gatewayIdByNetwork := gatewayIdByNetwork c;
     networkStartX := networkStartX c |}.

Definition withNodeIdMap (f : gmap string string → gmap string string)
    (c : Ctx) : Ctx :=
  {| processedNodes := processedNodes c;
     processedEdges := processedEdges c;
     handledExternalDiversionDevices := handledExternalDiversionDevices c;
     routerDiversions := routerDiversions c;
     nodeIdMap := f (nodeIdMap c);
     networkNodes := networkNodes c;
     routerIds := routerIds c;
     gatewayIdByNetwork := gatewayIdByNetwork c;
     networkStartX := networkStartX c |}.

Definition withNetworkNodes (f : gmap string nat → gmap string nat)
    (c : Ctx) : Ctx :=
  {| processedNodes := processedNodes c;
     processedEdges := processedEdges c;
     handledExternalDiversionDevices := handledExternalDiversionDevices c;
     routerDiversions := routerDiversions c;
     nodeIdMap := nodeIdMap c;
     networkNodes := f (networkNodes c);
     routerIds := routerIds c;
     gatewayIdByNetwork := gatewayIdByNetwork c;
     networkStartX := networkStartX c |}.

Definition withRouterIds (f : gset string → gset string) (c : Ctx) : Ctx :=
  {| processedNodes := processedNodes c;
     processedEdges := processedEdges c;
     handledExternalDiversionDevices := handledExternalDiversionDevices c;
     routerDiversions := routerDiversions c;
     nodeIdMap := nodeIdMap c;
     networkNodes := networkNodes c;
     routerIds := f (routerIds c);
     gatewayIdByNetwork := gatewayIdByNetwork c;
     networkStartX := networkStartX c |}.

Definition withGatewayIds (f : gmap string string → gmap string string)
    (c : Ctx) : Ctx :=
  {| processedNodes := processedNodes c;
     processedEdges := processedEdges c;
     handledExternalDiversionDevices := handledExternalDiversionDevices c;
     routerDiversions := routerDiversions c;
     nodeIdMap := nodeIdMap c;
     networkNodes := networkNodes c;
     routerIds := routerIds c;
     gatewayIdByNetwork := f (gatewayIdByNetwork c);
     networkStartX := networkStartX c |}.

Definition withStartX (f : Q → Q) (c : Ctx) : Ctx :=
  {| processedNodes := processedNodes c;
     processedEdges := processedEdges c;
     handledExternalDiversionDevices := handledExternalDiversionDevices c;
     routerDiversions := routerDiversions c;
     nodeIdMap := nodeIdMap c;
     networkNodes := networkNodes c;
     routerIds := routerIds c;
     gatewayIdByNetwork := gatewayIdByNetwork c;
     networkStartX := f (networkStartX c) |}.

(** [processedNodes.push(n)] *)
Definition pushNode (n : Node) : Ctx → Ctx := withNodes (λ ns, ns ++ [n]).

(** [processedEdges.push(e)] *)
Definition pushEdge (e : Edge) : Ctx → Ctx := withEdges (λ es, es ++ [e]).

(** A write through the node reference [i]. *)
Definition updateNode (i : nat) (f : Node → Node) : Ctx → Ctx :=
  withNodes (λ ns, alter f i ns).

(** [xs.findIndex(p)] *)
Fixpoint findIndex {A} (p : A → bool) (xs : list A) : option nat :=
  match xs with
  | [] => None
  | x :: xs' => if p x then Some 0 else S <$> findIndex p xs'
  end.

(** [xs.find(p)], as the reference to the element found. *)
Definition findNode (p : Node → bool) (c : Ctx) : option (nat * Node) :=
  i ← findIndex p (processedNodes c); n ← processedNodes c !! i; Some (i, n).

(** [xs.filter(p)] keeping the references: the indices, from [i] on, of
    the elements that satisfy [p]. *)
Fixpoint filterIndicesFrom {A} (p : A → bool) (i : nat) (xs : list A) : list nat :=
  match xs with
  | [] => []
  | x :: xs' =>
      if p x then i :: filterIndicesFrom p (S i) xs'
      else filterIndicesFrom p (S i) xs'
  end.

Definition filterIndices {A} (p : A → bool) (xs : list A) : list nat :=
  filterIndicesFrom p 0 xs.

(** The nodes that satisfy [p], each with its reference. *)
Definition filterNodes (p : Node → bool) (ns : list Node) : list (nat * Node) :=
  omap (λ i, n ← ns !! i; Some (i, n)) (filterIndices p ns).

(** [xs.forEach((x, index) => ...)] over a state. *)
Fixpoint forEachFrom {A St} (f : A → nat → St → St) (i : nat) (xs : list A)
    (s : St) : St :=
  match xs with
  | [] => s
  | x :: xs' => forEachFrom f (S i) xs' (f x i s)
  end.

Definition forEach {A St} (f : A → nat → St → St) (xs : list A) (s : St) : St :=
  forEachFrom f 0 xs s.

Definition inwallsCloudId : string := "cloud-inwalls".
Definition globalCloudId : string := "cloud-global".

(** ** Internet clouds and autonomous systems *)

Definition cloudNodes : list Node :=
  [ {| n_id := inwallsCloudId; n_type := cloudNode;
       n_data := mkData "Inwalls Internet" None;
       n_position := (200, 20)%Q;
       n_style := Some {| width := 300; height := 120 |};
       n_parentId := None; n_extent := None |};
    {| n_id := globalCloudId; n_type := cloudNode;
       n_data := mkData "Global Internet" None;
       n_position := (600, 20)%Q;
       n_style := Some {| width := 300; height := 120 |};
       n_parentId := None; n_extent := None |} ].

Definition globalToInwalls : Edge :=
  {| e_id := "global-to-inwalls-connection";
     e_source := globalCloudId; e_sourceHandle := None;
     e_target := inwallsCloudId; e_targetHandle := None;
     e_animated := true; e_type := bezier;
     e_style := dashed "#9C27B0" "10,5";
     e_label := Some "国际连接" |}.

Definition initialCtx : Ctx :=
  {| processedNodes := cloudNodes;
     processedEdges := [globalToInwalls];
     handledExternalDiversionDevices := ∅;
     routerDiversions := [];
     nodeIdMap := ∅;
     networkNodes := ∅;
     routerIds := ∅;
     gatewayIdByNetwork := ∅;
     networkStartX := 50 |}.

(** An edge leaving the bottom of a cloud or server and entering the top
    of its target, the shape most edge literals of the source share. *)
Definition downlink (id source target : string) (st : EdgeStyle)
    (l : option string) : Edge :=
  {| e_id := id;
     e_source := source; e_sourceHandle := Some "bottom-source";
     e_target := target; e_targetHandle := Some "top";
     e_animated := true; e_type := bezier;
     e_style := st; e_label := l |}.

(** [diversion.internet_type === 'domestic' ? inwallsCloudId : globalCloudId] *)
Definition cloudOf (internetType : option string) : string :=
  if bool_decide (internetType = Some "domestic") then inwallsCloudId else globalCloudId.

Definition isOuterServer (d : option DiversionConfig) : option DiversionConfig :=
  match d with
  | Some dv => if String.eqb (target_type dv) "outerserver" then Some dv else None
  | None => None
  end.

Definition asDevice (asNumber asId asCloudId : string) (deviceSpacing : Q)
    (device : Device) (deviceIndex : nat) (c : Ctx) : Ctx :=
  let deviceId := "device-" +:+ asNumber +:+ "-" +:+ dev_name device in
  let c := withNodeIdMap <[dev_name device := deviceId]> c in
  let deviceX := (25 + num deviceIndex * deviceSpacing)%Q in
  let c := pushNode
    {| n_id := deviceId; n_type := deviceNode;
       n_data := mkData (dev_name device) (dev_diversion device);
       n_position := (deviceX, 100%Q);
       n_style := None;
       n_parentId := Some asId; n_extent := Some "parent" |} c in
  let c := pushEdge
    (downlink ("edge-" +:+ asCloudId +:+ "-" +:+ deviceId) asCloudId deviceId
       (plain "#4285F4") (Some "Internet")) c in
  match isOuterServer (dev_diversion device) with
  | Some dv =>
      let targetCloudId := cloudOf (internet_type dv) in
      if bool_decide (targetCloudId ≠ asCloudId) then
        pushEdge
          (downlink ("edge-diversion-" +:+ targetCloudId +:+ "-" +:+ deviceId)
             targetCloudId deviceId (plain "#4285F4")
             (Some (orElse (dlabel dv) "外部服务器"))) c
      else c
  | None => c
  end.

(** [Math.min(80, Math.max(40, 900 / asNodes.length))]; with no group the
    quotient is [Infinity] and the spacing 80, and it is never read. *)
Definition horizontalSpacing (asCount : nat) : Q :=
  if (asCount =? 0)%nat then 80%Q
  else Qmin 80 (Qmax 40 (900 / num asCount)).

(** One backbone group; the running offset [currentX] is threaded along
    with the context. *)
Definition asGroup (asCount : nat) (as_ : AutonomousSystem) (asIndex : nat)
    (xc : Q * Ctx) : Q * Ctx :=
  let '(currentX, c) := xc in
  let asSize := calculateGroupSize (length (as_devices as_)) false 0 0 true in
  let asId := "as-" +:+ as_number as_ in
  let networkType :=
    orElse (network_type as_)
      (if (asIndex =? 0)%nat then "domestic" else "international") in
  let asWidth := Qmax (width asSize) (num (length (as_devices as_)) * 120 + 60) in
  let c := pushNode
    {| n_id := asId; n_type := group;
       n_data := mkData (as_number as_) None;
       n_position := (currentX, 280%Q);
       n_style := Some {| width := asWidth; height := height asSize |};
       n_parentId := None; n_extent := None |} c in
  let currentX := (currentX + (asWidth + horizontalSpacing asCount))%Q in
  let asCloudId :=
    if String.eqb networkType "domestic" then inwallsCloudId else globalCloudId in
  let deviceSpacing :=
    Qmin 200 (Qmax 150 (asWidth / num (length (as_devices as_) + 1))) in
  (currentX, forEach (asDevice (as_number as_) asId asCloudId deviceSpacing)
               (as_devices as_) c).

Definition asPass (asGroups : list AutonomousSystem) (c : Ctx) : Ctx :=
  (forEach (asGroup (length asGroups)) asGroups (50%Q, c)).2.

(** ** Topology resolver *)

Record Topology := {
  networkDeviceCounts : gmap string nat;
  parentNetworkMap : gmap string string;
  childNetworksMap : gmap string (list string)
}.

(** [Object.keys(privateNetworks)] *)
Definition networkNames (privateNetworks : list (string * PrivateNetwork)) : list string :=
  fst <$> privateNetworks.

(** [intf.type && Object.keys(privateNetworks).includes(intf.type)] *)
Definition namesNetwork (names : list string) (intf : Interface) : bool :=
  truthy (if_type intf) && bool_decide (if_type intf ∈ names).

(** The interface at which the scan of a gateway's interfaces breaks. *)
Definition parentInterface (names : list string) (network : PrivateNetwork)
    : option Interface :=
  gw ← gateway network;
  intfs ← gw_interfaces gw;
  List.find (namesNetwork names) intfs.

Definition resolveNetwork (names : list string) (t : Topology)
    (entry : string * PrivateNetwork) : Topology :=
  let '(networkName, network) := entry in
  let deviceCount :=
    match devices network with
    | Some ds => length ds + 1
    | None => 1
    end in
  let counts := <[networkName := deviceCount]> (networkDeviceCounts t) in
  match parentInterface names network with
  | Some intf =>
      let parentNetwork := if_type intf in
      {| networkDeviceCounts := counts;
         parentNetworkMap := <[networkName := parentNetwork]> (parentNetworkMap t);
         childNetworksMap :=
           <[parentNetwork :=
               default [] (childNetworksMap t !! parentNetwork) ++ [networkName]]>
             (childNetworksMap t) |}
  | None =>
      {| networkDeviceCounts := counts;
         parentNetworkMap := parentNetworkMap t;
         childNetworksMap := childNetworksMap t |}
  end.

Definition resolveTopology (privateNetworks : list (string * PrivateNetwork)) : Topology :=
  foldl (resolveNetwork (networkNames privateNetworks))
    {| networkDeviceCounts := ∅; parentNetworkMap := ∅; childNetworksMap := ∅ |}
    privateNetworks.

(** [!parentNetworkMap[name]]: a recorded parent is a non-empty string. *)
Definition isRoot (t : Topology) (name : string) : bool :=
  bool_decide (parentNetworkMap t !! name = None).

Definition rootNetworksCount (names : list string) (t : Topology) : nat :=
  length (filter (λ name, isRoot t name = true) names).

(** [Math.min(400, Math.max(250, 900 / rootNetworksCount))]; with no root
    the quotient is [Infinity] and the spacing 400, and it is never read. *)
Definition networkSpacing (roots : nat) : Q :=
  if (roots =? 0)%nat then 400%Q
  else Qmin 400 (Qmax 250 (900 / num roots)).

(** ** Outcomes

    The body of the effect runs inside [try]: it either completes,
    or throws, or (as far as the model can tell within its fuel) does not
    return. *)

Inductive Outcome (A : Type) :=
| Ok (a : A)
| Throw (e : string)
| Diverge.
Arguments Ok {A} a.
Arguments Throw {A} e.
Arguments Diverge {A}.

#[global] Instance Outcome_ret : MRet Outcome := λ A a, Ok a.
#[global] Instance Outcome_bind : MBind Outcome := λ A B f m,
  match m with
  | Ok a => f a
  | Throw e => Throw e
  | Diverge => Diverge
  end.

(** Reading a property of [undefined]. *)
Definition typeError : string := "TypeError: Cannot read properties of undefined".

Fixpoint forEachMFrom {A St} (f : A → nat → St → Outcome St) (i : nat)
    (xs : list A) (s : St) : Outcome St :=
  match xs with
  | [] => Ok s
  | x :: xs' => s' ← f x i s; forEachMFrom f (S i) xs' s'
  end.

Definition forEachM {A St} (f : A → nat → St → Outcome St) (xs : list A)
    (s : St) : Outcome St :=
  forEachMFrom f 0 xs s.

(** ** Private networks *)

Definition gatewayUplink (gatewayId : string) (c : Ctx) (intf : Interface) : Ctx :=
  if String.eqb (if_type intf) "domestic" then
    pushEdge
      (downlink ("edge-" +:+ inwallsCloudId +:+ "-" +:+ gatewayId +:+ "-domestic")
         inwallsCloudId gatewayId (plain "#4285F4") (Some "国内网络连接")) c
  else if String.eqb (if_type intf) "international" then
    pushEdge
      (downlink ("edge-" +:+ globalCloudId +:+ "-" +:+ gatewayId +:+ "-international")
         globalCloudId gatewayId (plain "#4285F4") (Some "国际网络连接")) c
  else c.

(** The name a router diversion is filed under: the target, or the first
    element of a target list ([undefined] for an empty list). *)
Definition firstTarget (t : Target) : option string :=
  match t with
  | TargetName s => Some s
  | TargetList l => head l
  end.

Definition recordRouterDiversion (gatewayId : string)
    (d : option DiversionConfig) (c : Ctx) : Ctx :=
  match d with
  | Some dv =>
      if String.eqb (target_type dv) "innerserver" then
        withRouterDiversions
          (λ l, l ++ [ {| routerId := gatewayId;
                          targetName := firstTarget (target dv);
                          rd_diversion := dv |} ]) c
      else c
  | None => c
  end.

Definition emitGateway (name networkId gatewayId : string) (gw : Gateway)
    (c : Ctx) : Ctx :=
  if bool_decide (name = "internal_network" ∧ gw_name gw = "testnet_router") then c
  else if bool_decide (gatewayId ∈ routerIds c) then c
  else
    let c := withRouterIds (λ ids, {[gatewayId]} ∪ ids) c in
    let c := pushNode
      {| n_id := gatewayId; n_type := routerNode;
         n_data := mkData (gw_name gw) (gw_diversion gw);
         n_position := (30, 30)%Q;
         n_style := None;
         n_parentId := Some networkId; n_extent := Some "parent" |} c in
    let c :=
      match gw_interfaces gw with
      | Some intfs => foldl (gatewayUplink gatewayId) c intfs
      | None => c
      end in
    recordRouterDiversion gatewayId (gw_diversion gw) c.

(** The plain gateway-to-device link. *)
Definition gatewayLink (gatewayId deviceId : string) : Edge :=
  {| e_id := "edge-" +:+ gatewayId +:+ "-" +:+ deviceId;
     e_source := gatewayId; e_sourceHandle := None;
     e_target := deviceId; e_targetHandle := None;
     e_animated := false; e_type := bezier;
     e_style := plain "#b1b1b7"; e_label := None |}.

(** The edge an upgraded gateway link is overwritten with: the spread of
    the old edge, then the new identifier, handles, style and label. *)
Definition upgradedEdge (gatewayId deviceId : string) (dv : DiversionConfig)
    (old : Edge) : Edge :=
  let external := String.eqb (traffic_type dv) "external" in
  {| e_id := "edge-diversion-" +:+ deviceId +:+ "-" +:+ gatewayId;
     e_source := e_source old;
     e_sourceHandle := if external then Some "bottom-source" else None;
     e_target := e_target old;
     e_targetHandle := if external then Some "top" else None;
     e_animated := true;
     e_type := e_type old;
     e_style :=
       if external then dashed "#9C27B0" "5, 5" else plain "#4285F4";
     e_label :=
       Some (orElse (dlabel dv) (if external then "外部分流" else "外部服务器")) |}.

(** The edge the upgrade is conditioned on. *)
Definition isCloudEdge (e : Edge) : bool :=
  String.eqb (e_source e) inwallsCloudId &&
  String.eqb (e_target e) "device-internal_network-internal_router".

Definition upgradeDeviceEdge (gatewayId deviceId : string)
    (dv : DiversionConfig) (c : Ctx) : Ctx :=
  match List.find isCloudEdge (processedEdges c) with
  | Some cloudEdge =>
      match findIndex (λ e, String.eqb (e_id e)
                              ("edge-" +:+ gatewayId +:+ "-" +:+ deviceId))
              (processedEdges c) with
      | Some edgeIndex =>
          let c :=
            if String.eqb (traffic_type dv) "external"
            then withHandled (λ h, {[deviceId]} ∪ h) c else c in
          withEdges (alter (upgradedEdge gatewayId deviceId dv) edgeIndex) c
      | None => c
      end
  | None => c
  end.

(** [!(name === 'test_network' && device.name === 'testnet_router')] *)
Definition notTestnetRouter (name : string) (device : Device) : bool :=
  negb (String.eqb name "test_network" && String.eqb (dev_name device) "testnet_router").

Definition isRegularDevice (name : string) (device : Device) : bool :=
  notTestnetRouter name device && bool_decide (dev_interfaces device = None).

Definition regularDevice (name networkId gatewayId : string) (networkSize : Size)
    (regularCount : nat) (device : Device) (deviceIndex : nat) (c : Ctx) : Ctx :=
  let deviceId := "device-" +:+ name +:+ "-" +:+ dev_name device in
  let c := withNodeIdMap <[dev_name device := deviceId]> c in
  let horizontalOffset := 180%Q in
  let deviceX :=
    if (deviceIndex =? 0)%nat then horizontalOffset
    else
      let effectiveWidth := (width networkSize - horizontalOffset - 100)%Q in
      (horizontalOffset +
       num deviceIndex * (effectiveWidth / num (Nat.max 1 (regularCount - 1))))%Q in
  let c := pushNode
    {| n_id := deviceId; n_type := deviceNode;
       n_data := mkData (dev_name device) (dev_diversion device);
       n_position := (deviceX, 160%Q);
       n_style := None;
       n_parentId := Some networkId; n_extent := Some "parent" |} c in
  let c := pushEdge (gatewayLink gatewayId deviceId) c in
  match isOuterServer (dev_diversion device) with
  | Some dv => upgradeDeviceEdge gatewayId deviceId dv c
  | None => c
  end.

Definition routerDevice (name networkId gatewayId : string) (device : Device)
    (deviceIndex : nat) (c : Ctx) : Ctx :=
  if negb (notTestnetRouter name device) then c
  else
    match dev_interfaces device with
    | None => c
    | Some intfs =>
        let deviceId := "device-" +:+ name +:+ "-" +:+ dev_name device in
        let c := withNodeIdMap <[dev_name device := deviceId]> c in
        if bool_decide (deviceId ∈ routerIds c) then c
        else
          let c := withRouterIds (λ ids, {[deviceId]} ∪ ids) c in
          let routerX := (30 + num deviceIndex * 200)%Q in
          let c := pushNode
            {| n_id := deviceId; n_type := routerNode;
               n_data := mkData (dev_name device) (dev_diversion device);
               n_position := (routerX, 30%Q);
               n_style := None;
               n_parentId := Some networkId; n_extent := Some "parent" |} c in
          pushEdge (gatewayLink gatewayId deviceId) c
    end.

Definition emitDevices (name networkId gatewayId : string) (networkSize : Size)
    (network : PrivateNetwork) (c : Ctx) : Ctx :=
  match devices network with
  | Some devs =>
      let regularDevices := List.filter (isRegularDevice name) devs in
      let c := forEach (regularDevice name networkId gatewayId networkSize
                          (length regularDevices)) regularDevices c in
      forEach (routerDevice name networkId gatewayId) devs c
  | None => c
  end.

Definition subnetLink (parentGatewayId childGatewayId : string) : Edge :=
  downlink ("edge-subnet-" +:+ parentGatewayId +:+ "-" +:+ childGatewayId)
    parentGatewayId childGatewayId (plain "#4CAF50") (Some "子网连接").

Section Networks.

Variable privateNetworks : list (string * PrivateNetwork).
Variable t : Topology.

(** [privateNetworks[name]] *)
Definition lookupNetwork (name : string) : option PrivateNetwork :=
  snd <$> List.find (λ entry, String.eqb entry.1 name) privateNetworks.

(** Fuel for the two recursions: no chain of distinct networks is
    longer than the declaration. *)
Definition depthFuel : nat := S (length privateNetworks).

Definition childrenOf (name : string) : list string :=
  default [] (childNetworksMap t !! name).

(** [networkDeviceCounts[name] || 0] *)
Definition countOf (name : string) : nat :=
  default 0 (networkDeviceCounts t !! name).

(** The container of a network: identifier, label, computed size and
    the position and parent reference it gets on creation. *)
Definition networkSizeOf (name : string) (level maxSubnetDepth : nat) : Size :=
  let hasSubnetworks := negb (bool_decide (childrenOf name = [])) in
  let totalDeviceCount :=
    countOf name +
    (if hasSubnetworks then foldr (λ child acc, countOf child + acc) 0 (childrenOf name)
     else 0) in
  calculateGroupSize totalDeviceCount hasSubnetworks level maxSubnetDepth false.

Definition networkNode (name : string) (network : PrivateNetwork)
    (parentId : option string) (level : nat) (networkSize : Size)
    (startX : Q) : Node :=
  {| n_id := "network-" +:+ name; n_type := group;
     n_data := mkData (replace name "_"%char " "%char) None;
     n_position :=
       match parentId with
       | Some _ => (40, 150 + num level * 120)%Q
       | None => (startX, 560%Q)
       end;
     n_style := Some networkSize;
     n_parentId := parentId;
     n_extent := match parentId with Some _ => Some "parent" | None => None end |}.

(** What follows the recursive call for one child: the child container
    is moved to the third row and the two gateways are linked. *)
Definition placeChild (name childName : string) (childXPosition : Q) (c : Ctx) : Ctx :=
  let c :=
    match networkNodes c !! childName with
    | Some i => updateNode i (setPosition (childXPosition, 280%Q)) c
    | None => c
    end in
  match gatewayIdByNetwork c !! name, gatewayIdByNetwork c !! childName with
  | Some parentGatewayId, Some childGatewayId =>
      if truthy parentGatewayId && truthy childGatewayId
      then pushEdge (subnetLink parentGatewayId childGatewayId) c
      else c
  | _, _ => c
  end.

(** What one call emits before it recurses into the children: the
    container, the gateway with its uplinks, the devices. *)
Definition enterNetwork (name : string) (network : PrivateNetwork) (gw : Gateway)
    (parentId : option string) (level : nat) (networkSize : Size) (c : Ctx) : Ctx :=
  let networkId := "network-" +:+ name in
  let c := withNetworkNodes <[name := length (processedNodes c)]> c in
  let c := pushNode
    (networkNode name network parentId level networkSize (networkStartX c)) c in
  let gatewayId := "device-" +:+ name +:+ "-" +:+ gw_name gw in
  let c := withGatewayIds <[name := gatewayId]> c in
  let c := emitGateway name networkId gatewayId gw c in
  emitDevices name networkId gatewayId networkSize network c.

(** [createNetworkNode]. Reading [network.subnet] of a missing network
    or [network.gateway.name] of a missing gateway throws; what had
    been pushed by then is lost with the context. *)
Fixpoint createNetworkNode (fuel : nat) (name : string)
    (data : option PrivateNetwork) (index : nat) (parentId : option string)
    (level : nat) (c : Ctx) : Outcome Ctx :=
  match fuel with
  | O => Diverge
  | S fuel' =>
      maxSubnetDepth ←
        (if bool_decide (childrenOf name = []) then Ok 0
         else match calculateMaxNetworkDepth depthFuel name (childNetworksMap t) with
              | Some d => Ok d
              | None => Diverge
              end);
      let networkSize := networkSizeOf name level maxSubnetDepth in
      match data with
      | None => Throw typeError
      | Some network =>
          match gateway network with
          | None => Throw typeError
          | Some gw =>
              let c := enterNetwork name network gw parentId level networkSize c in
              match childNetworksMap t !! name with
              | Some children =>
                  let childSpacing :=
                    ((width networkSize - 100) / num (length children + 1))%Q in
                  forEachM (λ childName childIndex c,
                    let childXPosition := (num childIndex * childSpacing + 50)%Q in
                    c ← createNetworkNode fuel' childName (lookupNetwork childName)
                          childIndex (Some ("network-" +:+ name)) (level + 1) c;
                    Ok (placeChild name childName childXPosition c))
                    children c
              | None => Ok c
              end
          end
      end
  end.

(** One iteration of the loop over the roots: networks with a recorded
    parent are skipped; after a root and its subnets are emitted the
    running offset advances by the root's width. *)
Definition placeRoot (c : Ctx) (entry : string * PrivateNetwork) : Outcome Ctx :=
  let '(networkName, networkData) := entry in
  if isRoot t networkName then
    c ← createNetworkNode depthFuel networkName (Some networkData) 0 None 0 c;
    let spacing := networkSpacing (rootNetworksCount (networkNames privateNetworks) t) in
    Ok (withStartX (λ x,
          match i ← networkNodes c !! networkName;
                n ← processedNodes c !! i; n_style n with
          | Some sz => (x + (width sz + spacing))%Q
          | None => (x + 350)%Q
          end) c)
  else Ok c.

Fixpoint foldM {A St} (f : St → A → Outcome St) (s : St) (xs : list A) : Outcome St :=
  match xs with
  | [] => Ok s
  | x :: xs' => s' ← f s x; foldM f s' xs'
  end.

Definition placeRoots (c : Ctx) : Outcome Ctx := foldM placeRoot c privateNetworks.

(** ** Inferred-interface edges *)

Definition matchesType (type : string) (node : Node) : bool :=
  includes (n_id node) type || String.eqb (label (n_data node)) type.

Definition inferredInterface (networkName : string)
    (currentGatewayId : option string) (c : Ctx) (intf : Interface) : Ctx :=
  if namesNetwork (networkNames privateNetworks) intf then c
  else if truthy (if_type intf) then
    let targetNodeId :=
      match gatewayIdByNetwork c !! if_type intf with
      | Some gatewayId => Some gatewayId
      | None => (λ found, n_id found.2) <$> findNode (matchesType (if_type intf)) c
      end in
    match targetNodeId, currentGatewayId with
    | Some targetNodeId, Some currentGatewayId =>
        if truthy targetNodeId && truthy currentGatewayId &&
           bool_decide (networkName ≠ if_type intf)
        then pushEdge
               (downlink ("edge-" +:+ targetNodeId +:+ "-" +:+ currentGatewayId
                            +:+ "-" +:+ if_type intf)
                  targetNodeId currentGatewayId (plain "#4CAF50")
                  (Some (replace (if_type intf) "_"%char " "%char +:+ "内部连接"))) c
        else c
    | _, _ => c
    end
  else c.

Definition inferredInterfaces (c : Ctx) (entry : string * PrivateNetwork) : Outcome Ctx :=
  let '(networkName, network) := entry in
  if isRoot t networkName then
    match gateway network with
    | None => Throw typeError
    | Some gw =>
        match gw_interfaces gw with
        | Some intfs =>
            Ok (foldl (inferredInterface networkName
                         (gatewayIdByNetwork c !! networkName)) c intfs)
        | None => Ok c
        end
    end
  else Ok c.

Definition inferredInterfacePass (c : Ctx) : Outcome Ctx :=
  foldM inferredInterfaces c privateNetworks.

End Networks.

(** ** Fix-ups by declared name *)

Definition findById (id : string) (c : Ctx) : option (nat * Node) :=
  findNode (λ node, String.eqb (n_id node) id) c.

(** [test_network] is nested under [internal_network] when both
    containers exist. *)
Definition nestTestNetwork (c : Ctx) : Ctx :=
  match networkNodes c !! "test_network", networkNodes c !! "internal_network" with
  | Some ti, Some ii =>
      match processedNodes c !! ti, processedNodes c !! ii with
      | Some testNetworkNode, Some internalNetworkNode =>
          let c :=
            match n_style internalNetworkNode with
            | Some sz =>
                let childSize :=
                  match n_style testNetworkNode with
                  | Some tsz => if Qeq_bool (width tsz) 0 then 450%Q else width tsz
                  | None => 450%Q
                  end in
                updateNode ii
                  (setStyle (Some {| width := Qmax (width sz) (childSize + 200);
                                     height := Qmax (height sz) 650 |})) c
            | None => c
            end in
          updateNode ti
            (λ n, setParent (n_id internalNetworkNode) (setPosition (80, 300)%Q n)) c
      | _, _ => c
      end
  | _, _ => c
  end.

Definition internalRouterId : string := "device-internal_network-internal_router".
Definition testnetRouterId : string := "device-test_network-testnet_router".

Definition cloudInternalEdge (c : Ctx) : Ctx :=
  match findById internalRouterId c with
  | Some (_, internalRouterNode) =>
      pushEdge (downlink "edge-cloud-internal" inwallsCloudId
                  (n_id internalRouterNode) (plain "#4285F4")
                  (Some "Internet Connection")) c
  | None => c
  end.

Definition internalTestEdge (c : Ctx) : Ctx :=
  match findById internalRouterId c, findById testnetRouterId c with
  | Some (_, internalNetworkRouter), Some (_, testNetworkRouter) =>
      pushEdge
        {| e_id := "edge-internal-test";
           e_source := n_id internalNetworkRouter; e_sourceHandle := None;
           e_target := n_id testNetworkRouter; e_targetHandle := None;
           e_animated := true; e_type := bezier;
           e_style := plain "#9C27B0"; e_label := Some "内网连接" |} c
  | _, _ => c
  end.

(** ** Diversions *)

(** The lookup shared by the diversion passes:
    [n.id === (nodeIdMap[name] || name) || n.id.endsWith(`-${name}`)].
    [key] is the name as a string; [strict] is the name as a value that
    [===] can equal a node id, which an array or [undefined] cannot. *)
Definition resolveTarget (key : string) (strict : option string) (c : Ctx)
    : option (nat * Node) :=
  let targetId :=
    match nodeIdMap c !! key with
    | Some id => if truthy id then Some id else strict
    | None => strict
    end in
  findNode (λ n, bool_decide (Some (n_id n) = targetId) ||
                 endsWith (n_id n) ("-" +:+ key)) c.

Definition strictTarget (t : Target) : option string :=
  match t with
  | TargetName s => Some s
  | TargetList _ => None
  end.

Definition routerDiversionEdge (router : string) (server : Node)
    (dv : DiversionConfig) : Edge :=
  downlink ("edge-diversion-router-" +:+ router +:+ "-" +:+ n_id server)
    (n_id server) router (dashed "#9C27B0" "5, 5")
    (Some (orElse (dlabel dv)
             (if String.eqb (traffic_type dv) "external" then "外部分流" else "路由分流"))).

Definition routerDiversionStep (c : Ctx) (rd : RouterDiversion) : Ctx :=
  let dv := rd_diversion rd in
  let isExternalDiversion := String.eqb (traffic_type dv) "external" in
  if isExternalDiversion && bool_decide (routerId rd ∈ handledExternalDiversionDevices c)
  then c
  else
    let emit (server : Node) :=
      let c := pushEdge (routerDiversionEdge (routerId rd) server dv) c in
      if isExternalDiversion
      then withHandled (λ h, {[routerId rd]} ∪ h) c else c in
    match resolveTarget (default "undefined" (targetName rd)) (targetName rd) c with
    | Some (_, targetNode) => emit targetNode
    | None =>
        if bool_decide (targetName rd = Some "server0") then
          match findNode (λ n, includes (n_id n) "server0" ||
                               String.eqb (label (n_data n)) "server0") c with
          | Some (_, server0Node) => emit server0Node
          | None => c
          end
        else c
    end.

Definition routerDiversionPass (c : Ctx) : Ctx :=
  foldl routerDiversionStep c (routerDiversions c).

Definition cdnEdge (id source target : string) (ty : EdgeType) (st : EdgeStyle)
    (l : option string) : Edge :=
  {| e_id := id;
     e_source := source; e_sourceHandle := Some "top";
     e_target := target; e_targetHandle := Some "bottom-target";
     e_animated := true; e_type := ty; e_style := st; e_label := l |}.

Definition cdnRegularMatch (targetName : string) (n : Node) : bool :=
  String.eqb (n_id n) targetName ||
  String.eqb (n_id n) ("device-AS31898-" +:+ targetName) ||
  includes (n_id n) targetName ||
  endsWith (n_id n) ("-" +:+ targetName) ||
  String.eqb (label (n_data n)) targetName.

Definition cdnLooseMatch (n : Node) : bool :=
  (includes (n_id n) "oracle" &&
   (includes (n_id n) "dubai" || includes (n_id n) "osaka")) ||
  (truthy (label (n_data n)) && includes (label (n_data n)) "oracle").

Definition cdnRegular (node : Node) (dv : DiversionConfig) (targetName : string)
    (index : nat) (c : Ctx) : Ctx :=
  match findNode (cdnRegularMatch targetName) c with
  | Some (_, targetNode) =>
      pushEdge
        (cdnEdge ("edge-cdn-regular-" +:+ n_id node +:+ "-" +:+ n_id targetNode
                    +:+ "-" +:+ pretty index)
           (n_id node) (n_id targetNode) straight (dashed "#FF5722" "8,4")
           (Some (orElse (dlabel dv) "CDN回源"))) c
  | None =>
      match findNode cdnLooseMatch c with
      | Some (_, looseMatchNode) =>
          pushEdge
            (cdnEdge ("edge-cdn-loose-" +:+ n_id node +:+ "-" +:+ n_id looseMatchNode
                        +:+ "-" +:+ pretty index)
               (n_id node) (n_id looseMatchNode) bezier (dashed "#888888" "5,2,2,2")
               (Some (orElse (dlabel dv) "CDN回源"))) c
      | None => c
      end
  end.

Definition diversionEdge (node targetNode : Node) (dv : DiversionConfig) : Edge :=
  downlink ("edge-diversion-" +:+ n_id node +:+ "-" +:+ n_id targetNode)
    (n_id targetNode) (n_id node) (dashed "#9C27B0" "5, 5")
    (Some (orElse (dlabel dv) "外部分流")).

Definition deviceDiversion (c : Ctx) (node : Node) : Ctx :=
  match diversion (n_data node) with
  | None => c
  | Some dv =>
      if String.eqb (traffic_type dv) "external" &&
         bool_decide (n_id node ∈ handledExternalDiversionDevices c)
      then c
      else if String.eqb (target_type dv) "innerserver" then
        match String.eqb (traffic_type dv) "cdn", target dv with
        | true, TargetList targets => forEach (cdnRegular node dv) targets c
        | _, _ =>
            match resolveTarget (targetString (target dv)) (strictTarget (target dv)) c with
            | Some (_, targetNode) =>
                let c := pushEdge (diversionEdge node targetNode dv) c in
                if String.eqb (traffic_type dv) "external" then c
                else
                  let targetCloudId := cloudOf (internet_type dv) in
                  let edgeExists :=
                    existsb (λ edge, String.eqb (e_source edge) targetCloudId &&
                                     String.eqb (e_target edge) (n_id targetNode))
                      (processedEdges c) in
                  if edgeExists then c
                  else pushEdge
                         (downlink ("edge-" +:+ targetCloudId +:+ "-" +:+ n_id targetNode)
                            targetCloudId (n_id targetNode) (plain "#4285F4")
                            (Some "专线连接")) c
            | None => c
            end
        end
      else c
  end.

Definition deviceDiversionPass (c : Ctx) : Ctx :=
  foldl deviceDiversion c (processedNodes c).

(** The two name-literal connections around [device3]. *)
Definition specialConnections (c : Ctx) : Ctx :=
  let device3Node := findById "device-AS2-device3" c in
  let internalServerNode := findById "device-internal_network-internal_server" c in
  let c :=
    match device3Node, internalServerNode with
    | Some (_, device3), Some (_, internalServer) =>
        pushEdge
          (downlink ("edge-diversion-" +:+ n_id device3 +:+ "-" +:+ n_id internalServer)
             (n_id device3) (n_id internalServer) (plain "#9C27B0")
             (Some "专线分流")) c
    | _, _ => c
    end in
  match findById testnetRouterId c, device3Node with
  | Some (_, testnetRouter), Some (_, device3) =>
      match diversion (n_data testnetRouter) with
      | Some dv =>
          pushEdge
            (downlink ("edge-diversion-" +:+ n_id testnetRouter +:+ "-" +:+ n_id device3)
               (n_id device3) (n_id testnetRouter) (dashed "#9C27B0" "5, 5")
               (Some (orElse (dlabel dv) "路由分流"))) c
      | None => c
      end
  | _, _ => c
  end.

(** ** CDN origin and edge sites *)

Definition ubuntuId : string := "device-home_server_network-rdch-server-ubuntu".

Definition oracleById (n : Node) : bool :=
  includes (n_id n) "oracle" || includes (n_id n) "dubai" || includes (n_id n) "osaka".

Definition oracleLike (n : Node) : bool :=
  oracleById n ||
  (truthy (label (n_data n)) &&
   (includes (label (n_data n)) "oracle" ||
    includes (label (n_data n)) "dubai" ||
    includes (label (n_data n)) "osaka")).

(** [diversion.traffic_type === 'cdn' && Array.isArray(diversion.target)] *)
Definition cdnTargets (d : option DiversionConfig) : option (list string) :=
  match d with
  | Some dv =>
      if String.eqb (traffic_type dv) "cdn" then
        match target dv with
        | TargetList targets => Some targets
        | TargetName _ => None
        end
      else None
  | None => None
  end.

Definition isCdnSource (n : Node) : bool :=
  bool_decide (is_Some (cdnTargets (diversion (n_data n)))).

(** The thin grey link of the later CDN passes. *)
Definition greyStyle : EdgeStyle := dashed "#888888" "5,2".

(** [edge.id.includes('edge-cdn-')] *)
Definition isCdnEdgeId (e : Edge) : bool := includes (e_id e) "edge-cdn-".

(** The block for the Ubuntu server: its earlier CDN edges are removed
    and one direct edge per Oracle node is added. *)
Definition ubuntuCdnBlock (c : Ctx) : Ctx :=
  match findById ubuntuId c with
  | Some (ui, ubuntuServerNode) =>
      match cdnTargets (diversion (n_data ubuntuServerNode)) with
      | Some _ =>
          let oracleNodes := filterNodes oracleLike (processedNodes c) in
          if bool_decide (oracleNodes = []) then c
          else
            let cdnEdgeIdsToRemove :=
              e_id <$> List.filter
                (λ edge, isCdnEdgeId edge &&
                         (String.eqb (e_source edge) (n_id ubuntuServerNode) ||
                          String.eqb (e_target edge) (n_id ubuntuServerNode)))
                (processedEdges c) in
            let c := withEdges
              (List.filter (λ edge, negb (bool_decide (e_id edge ∈ cdnEdgeIdsToRemove)))) c in
            let c := forEach (λ (oracle : nat * Node) index c,
              pushEdge
                (cdnEdge ("edge-cdn-direct-" +:+ n_id ubuntuServerNode +:+ "-"
                            +:+ n_id oracle.2 +:+ "-" +:+ pretty index)
                   (n_id ubuntuServerNode) (n_id oracle.2) bezier greyStyle None) c)
              oracleNodes c in
            let c := foldl (λ c (oracle : nat * Node), updateNode oracle.1 markCdnEdge c)
                       c oracleNodes in
            updateNode ui markCdnOrigin c
      | None => c
      end
  | None => c
  end.

(** The forced test links: every CDN edge so far is removed, and one edge
    per Oracle node is added whose identifier carries the reading of the
    clock ([Date.now()]) taken in that iteration; [now k] is the reading
    of the [k]-th call. *)
Definition testEdge (now : nat → N) (source target : string) (index : nat) : Edge :=
  {| e_id := "edge-cdn-test-" +:+ pretty (now index) +:+ "-" +:+ pretty index;
     e_source := source; e_sourceHandle := None;
     e_target := target; e_targetHandle := None;
     e_animated := true; e_type := bezier;
     e_style := greyStyle; e_label := None |}.

Definition cdnTestBlock (now : nat → N) (c : Ctx) : Ctx :=
  match findById ubuntuId c with
  | Some (ui, homeServerUbuntu) =>
      let oracleNodes := filterNodes oracleById (processedNodes c) in
      if bool_decide (oracleNodes = []) then c
      else
        let c := withEdges (List.filter (λ edge, negb (isCdnEdgeId edge))) c in
        forEach (λ (oracle : nat * Node) index c,
          let c := pushEdge
            (testEdge now (n_id homeServerUbuntu) (n_id oracle.2) index) c in
          let c := updateNode ui markCdnOrigin c in
          updateNode oracle.1 markCdnEdge c)
          oracleNodes c
  | None => c
  end.

Definition cdnFinalMatch (targetName : string) (n : Node) : bool :=
  includes (n_id n) targetName ||
  endsWith (n_id n) ("-" +:+ targetName) ||
  String.eqb (label (n_data n)) targetName.

Definition cdnFinalEdgeId (sourceId targetId : string) (index : nat) : string :=
  "edge-cdn-final-" +:+ sourceId +:+ "-" +:+ targetId +:+ "-" +:+ pretty index.

(** One target of one CDN source in the final pass: the edge replaces an
    edge of the same identifier or is appended, and both ends are
    flagged. *)
Definition cdnFinalTarget (si : nat) (sourceNode : Node) (targetName : string)
    (index : nat) (c : Ctx) : Ctx :=
  match findNode (cdnFinalMatch targetName) c with
  | Some (ti, targetNode) =>
      let edgeId := cdnFinalEdgeId (n_id sourceNode) (n_id targetNode) index in
      let newEdge :=
        cdnEdge edgeId (n_id sourceNode) (n_id targetNode) bezier greyStyle None in
      let c :=
        match findIndex (λ e, String.eqb (e_id e) edgeId) (processedEdges c) with
        | Some existingEdgeIndex => withEdges <[existingEdgeIndex := newEdge]> c
        | None => pushEdge newEdge c
        end in
      let c := updateNode si markCdnOrigin c in
      updateNode ti markCdnEdge c
  | None => c
  end.

Definition cdnFinalSource (c : Ctx) (source : nat * Node) : Ctx :=
  let '(si, sourceNode) := source in
  if String.eqb (n_id sourceNode) ubuntuId then c
  else
    match cdnTargets (diversion (n_data sourceNode)) with
    | Some targets => forEach (cdnFinalTarget si sourceNode) targets c
    | None => c
    end.

Definition cdnFinalUbuntu (c : Ctx) : Ctx :=
  match findById ubuntuId c with
  | Some (ui, ubuntuServerNode) =>
      forEach (λ (oracle : nat * Node) index c,
        match List.find (λ e, String.eqb (e_source e) (n_id ubuntuServerNode) &&
                              String.eqb (e_target e) (n_id oracle.2))
                (processedEdges c) with
        | Some existingEdge => c
        | None =>
            let c := pushEdge
              (cdnEdge ("edge-cdn-final-direct-" +:+ n_id ubuntuServerNode +:+ "-"
                          +:+ n_id oracle.2 +:+ "-" +:+ pretty index)
                 (n_id ubuntuServerNode) (n_id oracle.2) bezier greyStyle None) c in
            let c := updateNode ui markCdnOrigin c in
            updateNode oracle.1 markCdnEdge c
        end)
        (filterNodes oracleLike (processedNodes c)) c
  | None => c
  end.

Definition cdnFinalPass (cdnSourceNodes : list (nat * Node)) (c : Ctx) : Ctx :=
  if bool_decide (cdnSourceNodes = []) then c
  else foldl cdnFinalSource (cdnFinalUbuntu c) cdnSourceNodes.

(** The fixed links added last, under static identifiers. *)
Definition staticEdge (source target : string) (index : nat) : Edge :=
  {| e_id := "static-cdn-edge-" +:+ pretty index;
     e_source := source; e_sourceHandle := None;
     e_target := target; e_targetHandle := None;
     e_animated := true; e_type := bezier;
     e_style := greyStyle; e_label := None |}.

Definition staticCdnBlock (c : Ctx) : Ctx :=
  match findById ubuntuId c with
  | Some (ui, finalUbuntuNode) =>
      forEach (λ (oracle : nat * Node) index c,
        let staticEdgeId := "static-cdn-edge-" +:+ pretty index in
        let c :=
          match findIndex (λ e, String.eqb (e_id e) staticEdgeId) (processedEdges c) with
          | Some existingEdgeIndex => withEdges (delete existingEdgeIndex) c
          | None => c
          end in
        let c := pushEdge (staticEdge (n_id finalUbuntuNode) (n_id oracle.2) index) c in
        let c := updateNode ui markCdnOrigin c in
        updateNode oracle.1 markCdnEdge c)
        (filterNodes oracleById (processedNodes c)) c
  | None => c
  end.

(** Extra room for [home_server_network]. *)
Definition widenHomeServerNetwork (c : Ctx) : Ctx :=
  match networkNodes c !! "home_server_network" with
  | Some i =>
      updateNode i (λ n,
        match n_style n with
        | Some sz => setStyle (Some {| width := Qmax (width sz) 800;
                                       height := Qmax (height sz) 500 |}) n
        | None => n
        end) c
  | None => c
  end.

(** ** The synthesis *)

(** The body of the [try] block of the effect, up to the two state
    setters, in two parts: the structure with its diversions, then the
    CDN blocks. *)
Definition emitStructure (config : NetworkConfig) : Outcome Ctx :=
  let c := asPass (autonomous_systems config) initialCtx in
  let privateNetworks := private config in
  let t := resolveTopology privateNetworks in
  c ← placeRoots privateNetworks t c;
  c ← inferredInterfacePass privateNetworks t c;
  let c := nestTestNetwork c in
  let c := cloudInternalEdge c in
  let c := internalTestEdge c in
  let c := routerDiversionPass c in
  let c := deviceDiversionPass c in
  Ok (specialConnections c).

Definition cdnBlocks (now : nat → N) (c : Ctx) : Ctx :=
  let c := ubuntuCdnBlock c in
  let cdnSourceNodes := filterNodes isCdnSource (processedNodes c) in
  let c := cdnTestBlock now c in
  let c := cdnFinalPass cdnSourceNodes c in
  let c := staticCdnBlock c in
  widenHomeServerNetwork c.

Definition synthesize (config : NetworkConfig) (now : nat → N) : Outcome Ctx :=
  c ← emitStructure config;
  Ok (cdnBlocks now c).

Record NetworkDataResult := {
  nodes : list Node;
  edges : list Edge;
  isLoading : bool;
  error : option string
}.

(** What the hook returns once the effect has run: the state starts as
    two empty lists, loading, no error; the setters of the lists are the
    last statements of [try], [catch] sets the error and [finally]
    clears the loading flag. [None] stands for the effect not having
    returned. *)
Definition useNetworkData (config : NetworkConfig) (now : nat → N)
    : option NetworkDataResult :=
  match synthesize config now with
  | Ok c =>
      Some {| nodes := processedNodes c; edges := processedEdges c;
              isLoading := false; error := None |}
  | Throw e =>
      Some {| nodes := []; edges := []; isLoading := false; error := Some e |}
  | Diverge => None
  end.

(** ** The declaration shipped with the repository
    ([src/data/network-config.json]) *)

Definition server (name : string) : Device :=
  {| dev_name := name; dev_ip := "-"; dev_interface := Some "eth0";
     dev_interfaces := None; dev_diversion := None |}.

Definition host (name ip : string) (d : option DiversionConfig) : Device :=
  {| dev_name := name; dev_ip := ip; dev_interface := Some "eth0";
     dev_interfaces := None; dev_diversion := d |}.

Definition intf (name type ip : string) : Interface :=
  {| if_name := name; if_type := type; if_ip := ip |}.

Definition externalToServer0 : DiversionConfig :=
  {| target := TargetName "server0"; target_type := "innerserver";
     traffic_type := "external"; internet_type := Some "international";
     dlabel := Some "外网分流" |}.

Definition cdnToOracle : DiversionConfig :=
  {| target := TargetList ["oracle-dubai-amd-1"; "oracle-dubai-amd-2";
                           "oracle-osaka-amd-1"; "oracle-osaka-amd-2"];
     target_type := "innerserver"; traffic_type := "cdn";
     internet_type := Some "international"; dlabel := Some "CDN回源" |}.

Definition homeServerNetwork : PrivateNetwork :=
  {| subnet := "192.169.19.0/24";
     gateway := Some
       {| gw_name := "home_openwrt"; gw_ip := "192.169.19.1";
          gw_interfaces := Some [intf "eth0" "home_network" "192.168.18.20";
                                 intf "eth1" "internal" "192.169.19.1"];
          gw_diversion := Some externalToServer0 |};
     devices := Some
       [host "rdch-server-windows" "192.169.19.2" None;
        host "rdch-server-ubuntu" "192.169.19.3" (Some cdnToOracle);
        host "rdch-server-ubuntu-docker" "192.169.19.4" None;
        host "rdch-server-ubuntu-tester" "192.169.19.5" None] |}.

Definition networkConfig : NetworkConfig :=
  {| autonomous_systems :=
       [ {| as_number := "阿里云"; network_type := Some "domestic";
            as_devices := [server "servercn"] |};
         {| as_number := "AS40676 Psynet"; network_type := Some "international";
            as_devices := [server "server0"; server "server1"] |};
         {| as_number := "AS31898 Oracle"; network_type := Some "international";
            as_devices := [server "oracle-dubai-amd-1"; server "oracle-dubai-amd-2";
                           server "oracle-osaka-amd-1"; server "oracle-osaka-amd-2"] |} ];
     private :=
       [ ("home_network",
          {| subnet := "192.168.18.0/24";
             gateway := Some
               {| gw_name := "xiaomo_router"; gw_ip := "192.168.18.1";
                  gw_interfaces := Some [intf "eth0" "domestic" "-";
                                         intf "eth1" "internal" "192.168.18.1"];
                  gw_diversion := None |};
             devices := Some
               [host "rdch-server-mac" "192.168.18.10" (Some externalToServer0);
                host "rdch-server-r430" "192.168.18.18" None] |});
         ("home_server_network", homeServerNetwork);
         ("server1_network",
          {| subnet := "192.169.20.0/24";
             gateway := Some
               {| gw_name := "server1_openwrt"; gw_ip := "192.169.20.1";
                  gw_interfaces := Some [intf "eth0" "server1" "-";
                                         intf "eth1" "internal" "192.169.20.1"];
                  gw_diversion := None |};
             devices := Some
               [host "server1_windows" "192.169.20.3" None;
                host "server1_ubuntu" "192.169.20.4" None] |}) ] |}.

(** ** Further declarations used below *)

Definition noDiversionHost (name : string) : Device := host name "-" None.

Definition network (gw : option Gateway) (devs : list Device) : PrivateNetwork :=
  {| subnet := "10.0.0.0/24"; gateway := gw; devices := Some devs |}.

Definition router (name : string) (intfs : list Interface)
    (d : option DiversionConfig) : option Gateway :=
  Some {| gw_name := name; gw_ip := "10.0.0.1"; gw_interfaces := Some intfs;
          gw_diversion := d |}.

Definition privateOnly (nets : list (string * PrivateNetwork)) : NetworkConfig :=
  {| autonomous_systems := []; private := nets |}.

(** A network whose gateway is missing. *)
Definition missingGateway : NetworkConfig :=
  privateOnly [("lan", network None [noDiversionHost "pc"])].

(** A gateway with two interfaces of type [domestic]. *)
Definition twoDomesticUplinks : NetworkConfig :=
  privateOnly
    [("lan", network (router "gw" [intf "eth0" "domestic" "-";
                                    intf "eth1" "domestic" "-"] None) [])].

(** A backbone group and a private network of the same name, each with a
    device of the same name. *)
Definition sameNames : NetworkConfig :=
  {| autonomous_systems :=
       [ {| as_number := "x"; network_type := Some "domestic";
            as_devices := [server "d"] |} ];
     private := [("x", network (router "gw" [] None) [noDiversionHost "d"])] |}.

Definition constantClock (reading : N) : nat → N := λ _, reading.

(** A device whose diversion points at an external server, in a network
    without the uplink the upgrade is conditioned on. *)
Definition toOuterServer : DiversionConfig :=
  {| target := TargetName "vps"; target_type := "outerserver";
     traffic_type := "external"; internet_type := Some "international";
     dlabel := None |}.


(** The same device in [internal_network] behind [internal_router] with a
    [domestic] interface. *)
Definition internalConfig : NetworkConfig :=
  privateOnly
    [("internal_network",
      network (router "internal_router" [intf "eth0" "domestic" "-"] None)
        [host "pc" "10.0.0.2" (Some toOuterServer)])].







(** ** The inferred-interface pass, as a list of edges

    The edge an interface of the gateway of [networkName] contributes,
    if any, read off the context the pass starts from: the interface type
    must be non-empty and not the name of a declared network; the source
    is the gateway recorded under that type or else the first node whose
    identifier contains the type or whose label equals it; the target is
    the gateway recorded for [networkName]. *)
Definition inferredEdge (names : list string) (c : Ctx) (networkName : string)
    (intf : Interface) : option Edge :=
  let type := if_type intf in
  if truthy type && negb (bool_decide (type ∈ names)) then
    source ←
      match gatewayIdByNetwork c !! type with
      | Some gatewayId => Some gatewayId
      | None => n ← List.find (matchesType type) (processedNodes c); Some (n_id n)
      end;
    gatewayId ← gatewayIdByNetwork c !! networkName;
    if truthy source && truthy gatewayId && bool_decide (networkName ≠ type) then
      Some (downlink ("edge-" +:+ source +:+ "-" +:+ gatewayId +:+ "-" +:+ type)
              source gatewayId (plain "#4CAF50")
              (Some (replace type "_"%char " "%char +:+ "内部连接")))
    else None
  else None.

(** The edges of the pass: those of the interfaces of the gateways of the
    root networks, in declaration order; networks with a parent
    contribute none. *)
Definition inferredEdges (privateNetworks : list (string * PrivateNetwork))
    (t : Topology) (c : Ctx) : list Edge :=
  flat_map (λ entry : string * PrivateNetwork,
    if isRoot t entry.1 then
      match gateway entry.2 ≫= gw_interfaces with
      | Some intfs => omap (inferredEdge (networkNames privateNetworks) c entry.1) intfs
      | None => []
      end
    else []) privateNetworks.

(** * Invariants and relations of the properties *)

(** The identifiers of the nodes emitted so far. *)
Definition ids (c : Ctx) : list string := n_id <$> processedNodes c.










(** The parent map agrees with the children map. *)
Definition consistent (t : Topology) : Prop :=
  ∀ p l child, childNetworksMap t !! p = Some l → child ∈ l →
               parentNetworkMap t !! child = Some p.



(** What the CDN blocks never change of a node. *)
Definition skeleton (n : Node) : string * string * option DiversionConfig :=
  (n_id n, label (n_data n), diversion (n_data n)).

(** [n'] is [n] after writes of the CDN blocks: the same skeleton, and
    the flags only ever set. *)
Definition refines (n n' : Node) : Prop :=
  skeleton n' = skeleton n ∧
  (isCdnOrigin (n_data n) = true → isCdnOrigin (n_data n') = true) ∧
  (isCdnEdge (n_data n) = true → isCdnEdge (n_data n') = true).

(** The nodes of [c] are those of [c0], position by position, after
    such writes. *)
Definition Marked (c0 c : Ctx) : Prop :=
  Forall2 refines (processedNodes c0) (processedNodes c).

(** A test on nodes that reads the skeleton only. *)
Definition skeletal (p : Node → bool) : Prop :=
  ∀ n n', skeleton n' = skeleton n → p n' = p n.



(** * Definitions of the further properties *)

(** What the CDN blocks may change of a node: the two flags, which are
    only ever set, and the size, which is only ever enlarged. *)
Definition sizeGrows (s s' : option Size) : Prop :=
  match s, s' with
  | Some sz, Some sz' => (width sz <= width sz')%Q ∧ (height sz <= height sz')%Q
  | None, None => True
  | _, _ => False
  end.

Definition flagged (n n' : Node) : Prop :=
  n_id n' = n_id n ∧ n_type n' = n_type n ∧
  n_position n' = n_position n ∧
  n_parentId n' = n_parentId n ∧ n_extent n' = n_extent n ∧
  label (n_data n') = label (n_data n) ∧
  diversion (n_data n') = diversion (n_data n) ∧
  (isCdnOrigin (n_data n) = true → isCdnOrigin (n_data n') = true) ∧
  (isCdnEdge (n_data n) = true → isCdnEdge (n_data n') = true) ∧
  sizeGrows (n_style n) (n_style n').

(** [c'] has the nodes of [c] and its edges followed by further ones. *)
Definition appends (c c' : Ctx) : Prop :=
  processedNodes c' = processedNodes c ∧
  ∃ new, processedEdges c' = processedEdges c ++ new.

(** The identifiers of the CDN edges built before the test block: by the
    device diversions ([edge-cdn-regular-], [edge-cdn-loose-]) and by
    the block of the Ubuntu server ([edge-cdn-direct-]). *)
Definition earlyCdnId (id : string) : bool :=
  String.prefix "edge-cdn-regular-" id ||
  String.prefix "edge-cdn-loose-" id ||
  String.prefix "edge-cdn-direct-" id.

(** No edge carries such an identifier. *)
Definition noEarlyCdn (c : Ctx) : Prop :=
  ∀ e, e ∈ processedEdges c → earlyCdnId (e_id e) = false.

(** ** The node components ([src/components/NetworkNodes.tsx])

    Strings are sequences of code units; the code units of the model
    are the 256 characters of [ascii], among which the line terminators
    of a regular expression are line feed and carriage return. *)











(** Every parent reference names a node of the list, and one that comes
    earlier in it unless the node is the container of [test_network];
    and the references held in [networkNodes] point at the
    containers. *)
Record Parented (c : Ctx) : Prop := {
  parented_nodes : ∀ i n p,
    processedNodes c !! i = Some n → n_parentId n = Some p →
    ∃ j m, processedNodes c !! j = Some m ∧ n_id m = p ∧
           (n_id n ≠ "network-test_network" → j < i);
  parented_index : ∀ name i,
    networkNodes c !! name = Some i →
    ∃ n, processedNodes c !! i = Some n ∧ n_id n = "network-" +:+ name
}.


(** The identifiers of [c] are identifiers of [c']. *)
Definition idsBelow (c c' : Ctx) : Prop := ∀ x, x ∈ ids c → x ∈ ids c'.

(** ** Layout of the backbone groups *)



(** The width the box of a device node is drawn with ([w-[130px]] in
    [DeviceNode] and [RouterNode]). *)
Definition deviceNodeWidth : Q := 130.

(** ** The canvas ([src/components/NetworkTopology.tsx]) *)

(** The two lists held by [ReactFlowContent]. *)
Record Canvas := { shownNodes : list Node; shownEdges : list Edge }.

(** The effect on [initialNodes] and [initialEdges]: a list is copied
    only when it is not empty. *)
Definition receive (r : NetworkDataResult) (cv : Canvas) : Canvas :=
  {| shownNodes := match nodes r with [] => shownNodes cv | _ => nodes r end;
     shownEdges := match edges r with [] => shownEdges cv | _ => edges r end |}.

(** What the component returns: the loading pane, the error pane, or
    the flow with the two lists. *)
Inductive View :=
| LoadingView
| ErrorView (message : string)
| FlowView (cv : Canvas).

Definition render (r : NetworkDataResult) (cv : Canvas) : View :=
  if isLoading r then LoadingView
  else match error r with
       | Some e => ErrorView e
       | None => FlowView cv
       end.

(** The edge list is not empty. *)
Definition hasEdges (c : Ctx) : Prop := processedEdges c ≠ [].

(** [Descends m k a b]: [b] is reached from [a] by [k] steps from a
    network to one of its children in the children map [m]. *)
Inductive Descends (m : gmap string (list string)) : nat → string → string → Prop :=
| Descends_here a : Descends m 0 a a
| Descends_step k a b c children :
    m !! a = Some children → b ∈ children → Descends m k b c →
    Descends m (S k) a c.

(** * Properties *)

(** ** Container sizer *)

Lemma num_nonneg n : (0 <= num n)%Q.
Proof. unfold num. change 0%Q with (inject_Z 0). rewrite <- Zle_Qle. lia. Qed.

Lemma num_pos n : 0 < n → (0 < num n)%Q.
Proof. intros H. unfold num. change 0%Q with (inject_Z 0). rewrite <- Zlt_Qlt. lia. Qed.

Lemma devicesPerRow_bounds n : 2 ≤ devicesPerRow n ≤ 4.
Proof. unfold devicesPerRow. lia. Qed.

Lemma gridRows_holds n :
  (Z.of_nat n <= gridRows n * Z.of_nat (devicesPerRow n))%Z.
Proof.
  unfold gridRows.
  pose proof (devicesPerRow_bounds n) as [Hlo _].
  pose proof (Qle_ceiling (num n / num (devicesPerRow n))%Q) as Hc.
  assert (Hp : (0 < num (devicesPerRow n))%Q) by (apply num_pos; lia).
  apply (Qmult_le_compat_r _ _ (num (devicesPerRow n))) in Hc; [|by apply Qlt_le_weak].
  rewrite Qmult_comm, Qmult_div_r in Hc by (intros E; rewrite E in Hp; by apply Qlt_irrefl in Hp).
  unfold num in Hc. rewrite <- inject_Z_mult in Hc. rewrite Zle_Qle. exact Hc.
Qed.

Lemma gridRows_tight n :
  ((gridRows n - 1) * Z.of_nat (devicesPerRow n) < Z.of_nat n)%Z.
Proof.
  unfold gridRows.
  pose proof (devicesPerRow_bounds n) as [Hlo _].
  pose proof (Qceiling_lt (num n / num (devicesPerRow n))%Q) as Hc.
  assert (Hp : (0 < num (devicesPerRow n))%Q) by (apply num_pos; lia).
  apply (Qmult_lt_compat_r _ _ (num (devicesPerRow n))) in Hc; [|done].
  rewrite (Qmult_comm (_ / _)), Qmult_div_r in Hc
    by (intros E; rewrite E in Hp; by apply Qlt_irrefl in Hp).
  unfold num in Hc. rewrite <- inject_Z_mult in Hc. rewrite Zlt_Qlt. exact Hc.
Qed.

Lemma gridRows_nonneg n : (0 <= gridRows n)%Z.
Proof.
  pose proof (gridRows_holds n). pose proof (devicesPerRow_bounds n). nia.
Qed.


Lemma baseHeight_pos isAS : (0 < baseHeight isAS)%Q.
Proof. by destruct isAS. Qed.

Lemma baseWidth_pos isAS : (0 < baseWidth isAS)%Q.
Proof. by destruct isAS. Qed.




(** ** Depth calculator *)








(** C8: for a container with [n] devices, [n] in [0, 50], no children,
    nesting level 0 and child depth 0, the packing grid has at most 4
    devices per row and at least 2 when there is more than one device,
    its columns are the smaller of that and [n], its rows hold all [n]
    devices and no row is spare; the width returned is at least the
    larger of the base width and (columns + 2) device widths, the height
    at least rows device heights plus the vertical margin, and both are
    strictly positive. *)
Theorem containment_sizing (n : nat) (isAS : bool) :
  n ≤ 50 →
  let size := calculateGroupSize n false 0 0 isAS in
  devicesPerRow n ≤ 4 ∧
  (1 < n → 2 ≤ devicesPerRow n) ∧
  gridCols n = Nat.min (devicesPerRow n) n ∧
  (Z.of_nat n <= gridRows n * Z.of_nat (devicesPerRow n))%Z ∧
  ((gridRows n - 1) * Z.of_nat (devicesPerRow n) < Z.of_nat n)%Z ∧
  (Qmax (baseWidth isAS) ((num (gridCols n) + 2) * widthPerDevice isAS) <= width size)%Q ∧
  (inject_Z (gridRows n) * heightPerDevice isAS + verticalMargin isAS <= height size)%Q ∧
  (0 < width size)%Q ∧ (0 < height size)%Q.
Proof.
  intros Hn size. pose proof (devicesPerRow_bounds n) as [Hlo Hhi].
  split_and!; try done.
  - apply gridRows_holds.
  - apply gridRows_tight.
  - apply Qle_refl.
  - apply Q.le_max_r.
  - eapply Qlt_le_trans; [apply (baseWidth_pos isAS) | apply Q.le_max_l].
  - eapply Qlt_le_trans; [apply (baseHeight_pos isAS) | apply Q.le_max_l].
Qed.

Lemma containment_sizing_witness :
  let size := calculateGroupSize 7 false 0 0 false in
  (1080 <= width size)%Q ∧ (420 <= height size)%Q.
Proof.
  destruct (containment_sizing 7 false ltac:(lia)) as (_ & _ & _ & _ & _ & Hw & Hh & _).
  split.
  - eapply Qle_trans; [|exact Hw]. by vm_compute.
  - eapply Qle_trans; [|exact Hh]. by vm_compute.
Defined.

(** ** Topology resolver *)

Lemma resolveNetwork_parent names t name network k :
  parentNetworkMap (resolveNetwork names t (name, network)) !! k =
  if decide (name = k)
  then match parentInterface names network with
       | Some intf => Some (if_type intf)
       | None => parentNetworkMap t !! k
       end
  else parentNetworkMap t !! k.
Proof.
  unfold resolveNetwork. destruct (parentInterface names network) as [intf|]; cbn.
  - by rewrite lookup_insert.
  - by case_decide.
Qed.

Lemma resolveNetwork_consistent names t name network :
  parentNetworkMap t !! name = None → consistent t →
  consistent (resolveNetwork names t (name, network)).
Proof.
  intros Hfresh Hc p l child Hl Hin. rewrite resolveNetwork_parent.
  unfold resolveNetwork in Hl.
  destruct (parentInterface names network) as [intf|]; cbn in Hl.
  - rewrite lookup_insert in Hl. case_decide as Hp.
    + injection Hl as <-. subst p.
      apply elem_of_app in Hin as [Hin|Hin%list_elem_of_singleton].
      * destruct (childNetworksMap t !! if_type intf) as [old|] eqn:Hold;
          [|by apply elem_of_nil in Hin].
        pose proof (Hc _ _ _ Hold Hin) as Hpar.
        case_decide; [congruence|done].
      * subst child. by rewrite decide_True.
    + pose proof (Hc _ _ _ Hl Hin) as Hpar. case_decide; [congruence|done].
  - pose proof (Hc _ _ _ Hl Hin) as Hpar. case_decide; [congruence|done].
Qed.

Lemma resolve_fold names entries :
  ∀ t0, NoDup entries.*1 →
        (∀ k, k ∈ entries.*1 → parentNetworkMap t0 !! k = None) →
        consistent t0 →
  let t := foldl (resolveNetwork names) t0 entries in
  consistent t ∧
  (∀ name network, (name, network) ∈ entries →
     parentNetworkMap t !! name = if_type <$> parentInterface names network) ∧
  (∀ k, k ∉ entries.*1 → parentNetworkMap t !! k = parentNetworkMap t0 !! k).
Proof.
  induction entries as [|[name network] entries IH]; intros t0 Hnd Hfresh Hc; cbn [foldl].
  - split_and!; [done| |done]. intros ?? Hin. by apply elem_of_nil in Hin.
  - cbn in Hnd. apply NoDup_cons in Hnd as [Hname Hnd].
    destruct (IH (resolveNetwork names t0 (name, network))) as (Hc' & Hpar & Hout).
    + done.
    + intros k Hk. rewrite resolveNetwork_parent. case_decide; [by subst|].
      apply Hfresh. cbn. by apply list_elem_of_further.
    + apply resolveNetwork_consistent; [|done]. apply Hfresh. cbn. apply list_elem_of_here.
    + split_and!; [done| |].
      * intros name' network' [[= -> ->]|Hin]%elem_of_cons; [|by apply Hpar].
        rewrite Hout by done. rewrite resolveNetwork_parent, decide_True by done.
        destruct (parentInterface names network); [done|].
        apply Hfresh. cbn. apply list_elem_of_here.
      * intros k Hk. cbn in Hk. apply not_elem_of_cons in Hk as [Hne Hk].
        rewrite Hout by done. rewrite resolveNetwork_parent. by case_decide.
Qed.

Lemma resolveTopology_spec privateNetworks :
  NoDup (networkNames privateNetworks) →
  let t := resolveTopology privateNetworks in
  consistent t ∧
  (∀ name network, (name, network) ∈ privateNetworks →
     parentNetworkMap t !! name =
       if_type <$> parentInterface (networkNames privateNetworks) network).
Proof.
  intros Hnd. unfold resolveTopology.
  destruct (resolve_fold (networkNames privateNetworks) privateNetworks
              {| networkDeviceCounts := ∅; parentNetworkMap := ∅; childNetworksMap := ∅ |})
    as (Hc & Hpar & _); done.
Qed.

(** ** Termination *)

Lemma Ok_inj {A} (a b : A) : Ok a = Ok b → a = b.
Proof. by intros [= ->]. Qed.




Lemma parent_declared privateNetworks name parent :
  NoDup (networkNames privateNetworks) →
  parentNetworkMap (resolveTopology privateNetworks) !! name = Some parent →
  name ∈ networkNames privateNetworks.
Proof.
  intros Hnd Hp.
  destruct (decide (name ∈ networkNames privateNetworks)) as [|Hout]; [done|].
  destruct (resolve_fold (networkNames privateNetworks) privateNetworks
              {| networkDeviceCounts := ∅; parentNetworkMap := ∅; childNetworksMap := ∅ |})
    as (_ & _ & Hkeep); [done|done|done|].
  unfold resolveTopology in Hp. rewrite (Hkeep name Hout) in Hp. done.
Qed.










(** ** Failure *)












(** ** Determinism *)

Lemma cdnTestBlock_clock_free (now now' : nat → N) (c : Ctx) :
  findById ubuntuId c = None ∨ filterNodes oracleById (processedNodes c) = [] →
  cdnTestBlock now c = cdnTestBlock now' c.
Proof.
  intros [H|H]; unfold cdnTestBlock.
  - by rewrite H.
  - destruct (findById ubuntuId c) as [[ui hu]|]; [|done]. by rewrite H.
Qed.

(** C1, at the declaration shipped with the repository: two runs that
    read the clock one millisecond apart return the same nodes and
    different edge identifiers. *)
Theorem synthesis_depends_on_clock :
  ∃ r1 r2,
    useNetworkData networkConfig (constantClock 1700000000000) = Some r1 ∧
    useNetworkData networkConfig (constantClock 1700000000001) = Some r2 ∧
    nodes r1 = nodes r2 ∧
    ("edge-cdn-test-1700000000000-0" ∈ e_id <$> edges r1) ∧
    ("edge-cdn-test-1700000000000-0" ∉ e_id <$> edges r2) ∧
    edges r1 ≠ edges r2.
Proof.
  eexists _, _. split; [by vm_compute|]. split; [by vm_compute|].
  split; [reflexivity|].
  split_and!.
  - apply (bool_decide_unpack _). by vm_compute.
  - apply (bool_decide_unpack _). by vm_compute.
  - intros Heq. apply (f_equal (fmap e_id)) in Heq. revert Heq.
    apply (bool_decide_unpack _). by vm_compute.
Qed.

(** ** Identifiers *)

(** C2, at a gateway with two [domestic] interfaces: both uplink edges
    carry the same identifier; and at a backbone group and a private
    network of one name with a device of one name: both device nodes
    carry the same identifier. *)
Theorem identifiers_collide :
  (∃ r, useNetworkData twoDomesticUplinks (constantClock 0) = Some r ∧
        error r = None ∧
        ¬ NoDup (e_id <$> edges r)) ∧
  (∃ r, useNetworkData sameNames (constantClock 0) = Some r ∧
        error r = None ∧
        ¬ NoDup (n_id <$> nodes r)).
Proof.
  split; eexists; (split; [by vm_compute|]); (split; [reflexivity|]);
    apply (bool_decide_unpack _); by vm_compute.
Qed.

(** ** Loops and invariants *)

Lemma forEachFrom_inv {A St} (I : St → Prop) (f : A → nat → St → St) (xs : list A) :
  (∀ x i s, x ∈ xs → I s → I (f x i s)) →
  ∀ i s, I s → I (forEachFrom f i xs s).
Proof.
  induction xs as [|x xs IH]; intros Hf i s Hs; [done|].
  simpl. apply IH.
  - intros y j s' Hy. apply Hf. by apply list_elem_of_further.
  - apply Hf; [apply list_elem_of_here | done].
Qed.

Lemma forEach_inv {A St} (I : St → Prop) (f : A → nat → St → St) (xs : list A) s :
  (∀ x i s, x ∈ xs → I s → I (f x i s)) → I s → I (forEach f xs s).
Proof. intros. unfold forEach. by apply forEachFrom_inv. Qed.

Lemma foldl_inv {A St} (I : St → Prop) (f : St → A → St) (xs : list A) :
  (∀ x s, x ∈ xs → I s → I (f s x)) →
  ∀ s, I s → I (foldl f s xs).
Proof.
  induction xs as [|x xs IH]; intros Hf s Hs; [done|].
  simpl. apply IH.
  - intros y s' Hy. apply Hf. by apply list_elem_of_further.
  - apply Hf; [apply list_elem_of_here | done].
Qed.

Lemma forEachMFrom_inv {A St} (I : St → Prop) (f : A → nat → St → Outcome St)
    (xs : list A) :
  (∀ x i s s', x ∈ xs → I s → f x i s = Ok s' → I s') →
  ∀ i s s', I s → forEachMFrom f i xs s = Ok s' → I s'.
Proof.
  induction xs as [|x xs IH]; intros Hf i s s' Hs Hrun.
  - by injection Hrun as <-.
  - simpl in Hrun. destruct (f x i s) as [s1| |] eqn:Hx; try done.
    apply (IH (λ y j u u' Hy, Hf y j u u' (list_elem_of_further _ _ _ Hy)) (S i) s1 s');
      [|done].
    by apply (Hf x i s s1); [apply list_elem_of_here| |].
Qed.

Lemma foldM_inv {A St} (I : St → Prop) (f : St → A → Outcome St) (xs : list A) :
  (∀ x s s', x ∈ xs → I s → f s x = Ok s' → I s') →
  ∀ s s', I s → foldM f s xs = Ok s' → I s'.
Proof.
  induction xs as [|x xs IH]; intros Hf s s' Hs Hrun.
  - by injection Hrun as <-.
  - simpl in Hrun. destruct (f s x) as [s1| |] eqn:Hx; try done.
    apply (IH (λ y u u' Hy, Hf y u u' (list_elem_of_further _ _ _ Hy)) s1 s'); [|done].
    by apply (Hf x s s1); [apply list_elem_of_here| |].
Qed.

(** A property of the context that every call of [createNetworkNode]
    maintains, given that it is maintained by what a call emits before
    recursing and by the placement of a child; [Pre] constrains the
    arguments of the calls. *)
Section NetworkInvariant.

Variable privateNetworks : list (string * PrivateNetwork).
Variable t : Topology.
Variable Pre : string → option PrivateNetwork → option string → Prop.
Variable I : Ctx → Prop.

Hypothesis enter_inv : ∀ name network gw parentId level size c,
  Pre name (Some network) parentId → gateway network = Some gw →
  I c → I (enterNetwork name network gw parentId level size c).
Hypothesis child_pre : ∀ name data parentId children child,
  Pre name data parentId →
  childNetworksMap t !! name = Some children → child ∈ children →
  Pre child (lookupNetwork privateNetworks child) (Some ("network-" +:+ name)).
Hypothesis place_inv : ∀ name child x c, I c → I (placeChild name child x c).

Lemma createNetworkNode_inv fuel :
  ∀ name data index parentId level c c',
    Pre name data parentId → I c →
    createNetworkNode privateNetworks t fuel name data index parentId level c = Ok c' →
    I c'.
Proof.
  induction fuel as [|fuel IH]; intros name data index parentId level c c' Hpre Hc Hrun;
    [done|].
  simpl in Hrun.
  destruct (if bool_decide (childrenOf t name = []) then _ else _) as [d| |]; try done.
  simpl in Hrun.
  destruct data as [network|]; [|done].
  destruct (gateway network) as [gw|] eqn:Hgw; [|done].
  pose proof (enter_inv name network gw parentId level
                (networkSizeOf t name level d) c Hpre Hgw Hc) as Hc1.
  destruct (childNetworksMap t !! name) as [children|] eqn:Hch.
  - revert Hrun. apply forEachMFrom_inv; [|done].
    intros child i s s' Hin Hs Hstep.
    destruct (createNetworkNode _ _ fuel child _ i _ _ s) as [s1| |] eqn:Hrec; try done.
    simpl in Hstep. injection Hstep as <-.
    apply place_inv. eapply IH; [|exact Hs|exact Hrec].
    by eapply child_pre.
  - by injection Hrun as <-.
Qed.

Hypothesis root_pre : ∀ name network,
  (name, network) ∈ privateNetworks → isRoot t name = true →
  Pre name (Some network) None.
Hypothesis startX_inv : ∀ f c, I c → I (withStartX f c).

Lemma placeRoots_inv c c' :
  I c → placeRoots privateNetworks t c = Ok c' → I c'.
Proof.
  unfold placeRoots. apply foldM_inv.
  intros [name network] s s' Hin Hs Hstep. unfold placeRoot in Hstep.
  destruct (isRoot t name) eqn:Hroot; [|by injection Hstep as <-].
  destruct (createNetworkNode _ _ _ _ _ _ _ _ s) as [s1| |] eqn:Hrec; try done.
  simpl in Hstep. injection Hstep as <-.
  apply startX_inv. eapply createNetworkNode_inv; [|exact Hs|exact Hrec].
  by apply root_pre.
Qed.

End NetworkInvariant.

(** ** No dangling edges *)

Ltac ctx_simpl :=
  cbn [processedNodes processedEdges handledExternalDiversionDevices
       routerDiversions nodeIdMap networkNodes routerIds gatewayIdByNetwork
       networkStartX withNodes withEdges withHandled withRouterDiversions
       withNodeIdMap withNetworkNodes withRouterIds withGatewayIds withStartX
       pushNode pushEdge updateNode] in *.

Lemma ids_pushNode n c : ids (pushNode n c) = ids c ++ [n_id n].
Proof. unfold ids. ctx_simpl. by rewrite fmap_app. Qed.

Lemma ids_pushNode_mono n c x : x ∈ ids c → x ∈ ids (pushNode n c).
Proof. rewrite ids_pushNode, elem_of_app. by left. Qed.

Lemma ids_pushNode_new n c : n_id n ∈ ids (pushNode n c).
Proof. rewrite ids_pushNode, elem_of_app. right. apply list_elem_of_here. Qed.

Lemma fmap_alter_inv {A B} (g : A → B) (f : A → A) (l : list A) i :
  (∀ x, g (f x) = g x) → g <$> alter f i l = g <$> l.
Proof.
  intros Hf. revert i. induction l as [|x l IH]; intros [|i]; csimpl; f_equal; auto.
Qed.

Lemma ids_updateNode i f c :
  (∀ n, n_id (f n) = n_id n) → ids (updateNode i f c) = ids c.
Proof. intros Hf. unfold ids. ctx_simpl. by apply fmap_alter_inv. Qed.

Lemma ids_pushEdge e c : ids (pushEdge e c) = ids c.
Proof. done. Qed.












Lemma findIndex_Some {A} (p : A → bool) (xs : list A) i :
  findIndex p xs = Some i →
  ∃ x, xs !! i = Some x ∧ p x = true ∧ ∀ j y, j < i → xs !! j = Some y → p y = false.
Proof.
  revert i. induction xs as [|x xs IH]; intros i Hf; [done|].
  simpl in Hf. destruct (p x) eqn:Hp.
  - injection Hf as <-. exists x. split_and!; [done|done|lia].
  - destruct (findIndex p xs) as [k|] eqn:Hk; [|done].
    injection Hf as <-. destruct (IH k eq_refl) as (y & Hy & Hpy & Hmin).
    exists y. split_and!; [done|done|].
    intros [|j] z Hj Hz; [by injection Hz as <-|].
    apply (Hmin j); [lia|done].
Qed.

Lemma findIndex_None {A} (p : A → bool) (xs : list A) :
  findIndex p xs = None → ∀ x, x ∈ xs → p x = false.
Proof.
  induction xs as [|x xs IH]; intros Hf y Hy; [by apply elem_of_nil in Hy|].
  simpl in Hf. destruct (p x) eqn:Hp; [done|].
  destruct (findIndex p xs) eqn:Hk; [done|].
  apply elem_of_cons in Hy as [->|Hy]; [done|by apply IH].
Qed.

Lemma findNode_Some p c i n :
  findNode p c = Some (i, n) →
  processedNodes c !! i = Some n ∧ p n = true ∧
  findIndex p (processedNodes c) = Some i.
Proof.
  unfold findNode. intros H.
  destruct (findIndex p (processedNodes c)) as [k|] eqn:Hk; [|done].
  simpl in H. destruct (processedNodes c !! k) as [m|] eqn:Hm; [|done].
  injection H as <- <-. apply findIndex_Some in Hk as (x & Hx & Hp & _).
  rewrite Hm in Hx. injection Hx as <-. by split_and!.
Qed.

Lemma findNode_id p c i n : findNode p c = Some (i, n) → n_id n ∈ ids c.
Proof.
  intros (H & _ & _)%findNode_Some. unfold ids.
  apply list_elem_of_fmap. exists n. split; [done|by eapply list_elem_of_lookup_2].
Qed.

Lemma filterIndicesFrom_lookup {A} (p : A → bool) (xs : list A) k i :
  i ∈ filterIndicesFrom p k xs → ∃ x, xs !! (i - k) = Some x ∧ p x = true ∧ k ≤ i.
Proof.
  revert k. induction xs as [|x xs IH]; intros k Hin; [by apply elem_of_nil in Hin|].
  simpl in Hin. destruct (p x) eqn:Hp.
  - apply elem_of_cons in Hin as [->|Hin].
    + exists x. rewrite Nat.sub_diag. by split_and!.
    + destruct (IH _ Hin) as (y & Hy & Hpy & Hle). exists y. split_and!; [|done|lia].
      replace (i - k) with (S (i - S k)) by lia. done.
  - destruct (IH _ Hin) as (y & Hy & Hpy & Hle). exists y. split_and!; [|done|lia].
    replace (i - k) with (S (i - S k)) by lia. done.
Qed.

Lemma filterNodes_elem p ns i n :
  (i, n) ∈ filterNodes p ns → ns !! i = Some n ∧ p n = true.
Proof.
  unfold filterNodes. intros (j & Hj & Hom)%list_elem_of_omap.
  destruct (ns !! j) as [m|] eqn:Hm; [|done]. simpl in Hom. injection Hom as <- <-.
  apply filterIndicesFrom_lookup in Hj as (x & Hx & Hp & _).
  rewrite Nat.sub_0_r, Hm in Hx. by injection Hx as <-.
Qed.

Lemma filterNodes_id p c i n :
  (i, n) ∈ filterNodes p (processedNodes c) → n_id n ∈ ids c.
Proof.
  intros [H _]%filterNodes_elem. unfold ids.
  apply list_elem_of_fmap. exists n. split; [done|by eapply list_elem_of_lookup_2].
Qed.



Ltac ids_step :=
  lazymatch goal with
  | |- ?x ∈ ids (pushNode ?n ?c) =>
      first [ exact (ids_pushNode_new n c) | apply ids_pushNode_mono ]
  | |- ?x ∈ ids (pushEdge _ ?c) => change (x ∈ ids c)
  | |- ?x ∈ ids (withEdges _ ?c) => change (x ∈ ids c)
  | |- ?x ∈ ids (withNodeIdMap _ ?c) => change (x ∈ ids c)
  | |- ?x ∈ ids (withHandled _ ?c) => change (x ∈ ids c)
  | |- ?x ∈ ids (withNetworkNodes _ ?c) => change (x ∈ ids c)
  | |- ?x ∈ ids (withStartX _ ?c) => change (x ∈ ids c)
  | |- ?x ∈ ids (withRouterIds _ ?c) => change (x ∈ ids c)
  | |- ?x ∈ ids (withGatewayIds _ ?c) => change (x ∈ ids c)
  | |- ?x ∈ ids (withRouterDiversions _ ?c) => change (x ∈ ids c)
  end.

Ltac ids_solve :=
  cbn [e_source e_target downlink gatewayLink subnetLink cdnEdge testEdge
       staticEdge routerDiversionEdge diversionEdge];
  repeat ids_step;
  eauto using findNode_id, filterNodes_id.








Lemma ids_regularDevice_mono name networkId gatewayId size count device index c x :
  x ∈ ids c →
  x ∈ ids (regularDevice name networkId gatewayId size count device index c).
Proof.
  intros Hx. unfold regularDevice, upgradeDeviceEdge.
  repeat case_match; ids_solve.
Qed.


Lemma ids_routerDevice_mono name networkId gatewayId device index c x :
  x ∈ ids c → x ∈ ids (routerDevice name networkId gatewayId device index c).
Proof.
  intros Hx. unfold routerDevice. repeat case_match; ids_solve.
Qed.























Lemma elem_of_List_filter {A} (p : A → bool) (l : list A) x :
  x ∈ List.filter p l ↔ x ∈ l ∧ p x = true.
Proof. rewrite !list_elem_of_In. apply filter_In. Qed.


Lemma markCdnOrigin_id n : n_id (markCdnOrigin n) = n_id n.
Proof. done. Qed.

Lemma markCdnEdge_id n : n_id (markCdnEdge n) = n_id n.
Proof. done. Qed.







Lemma elem_of_insert_list {A} (l : list A) i x y :
  y ∈ <[i := x]> l → y = x ∨ y ∈ l.
Proof.
  intros [j Hj]%list_elem_of_lookup_1.
  destruct (decide (i = j)) as [->|Hne].
  - destruct (decide (j < length l)).
    + rewrite list_lookup_insert_eq in Hj by done. left. by injection Hj.
    + rewrite list_insert_ge in Hj by lia. right. by eapply list_elem_of_lookup_2.
  - rewrite list_lookup_insert_ne in Hj by done. right. by eapply list_elem_of_lookup_2.
Qed.
















(** ** Edge upgrade *)





























(** ** Inferred-interface edges *)

Lemma findIndex_find {A} (p : A → bool) (xs : list A) :
  (i ← findIndex p xs; xs !! i) = List.find p xs.
Proof.
  induction xs as [|x xs IH]; [done|]. simpl.
  destruct (p x); [done|]. rewrite <- IH. by destruct (findIndex p xs).
Qed.

Lemma findNode_find p c :
  snd <$> findNode p c = List.find p (processedNodes c).
Proof.
  rewrite <- findIndex_find. unfold findNode.
  destruct (findIndex p (processedNodes c)) as [i|]; [|done]. simpl.
  by destruct (processedNodes c !! i).
Qed.

Lemma inferredInterface_spec privateNetworks networkName c s intf :
  processedNodes s = processedNodes c →
  gatewayIdByNetwork s = gatewayIdByNetwork c →
  inferredInterface privateNetworks networkName (gatewayIdByNetwork c !! networkName) s intf =
  match inferredEdge (networkNames privateNetworks) c networkName intf with
  | Some e => pushEdge e s
  | None => s
  end.
Proof.
  intros Hn Hg. unfold inferredInterface, inferredEdge, namesNetwork.
  destruct (truthy (if_type intf)); [|done].
  cbn [andb]. case_bool_decide; [done|].
  cbn [negb]. rewrite Hg.
  assert (Hfind : (λ found : nat * Node, n_id found.2) <$> findNode (matchesType (if_type intf)) s
                  = (n ← List.find (matchesType (if_type intf)) (processedNodes c); Some (n_id n))).
  { rewrite <- findNode_find. unfold findNode. rewrite Hn.
    destruct (findIndex _ _) as [i|]; [|done]. simpl.
    by destruct (processedNodes c !! i). }
  rewrite Hfind.
  destruct (match gatewayIdByNetwork c !! if_type intf with
            | Some g => Some g
            | None => _ end) as [source|]; [|done].
  simpl. destruct (gatewayIdByNetwork c !! networkName) as [gatewayId|]; [|done].
  simpl. by destruct (_ && _).
Qed.

Lemma inferredInterface_fold privateNetworks networkName c intfs :
  ∀ s, processedNodes s = processedNodes c →
       gatewayIdByNetwork s = gatewayIdByNetwork c →
  let s' := foldl (inferredInterface privateNetworks networkName
                     (gatewayIdByNetwork c !! networkName)) s intfs in
  processedNodes s' = processedNodes c ∧
  gatewayIdByNetwork s' = gatewayIdByNetwork c ∧
  processedEdges s' =
    processedEdges s ++ omap (inferredEdge (networkNames privateNetworks) c networkName) intfs.
Proof.
  induction intfs as [|intf intfs IH]; intros s Hn Hg; cbn [foldl].
  - by rewrite app_nil_r.
  - rewrite inferredInterface_spec by done.
    assert (Hom : ∀ f : Interface → option Edge,
              omap f (intf :: intfs) =
              match f intf with Some e => e :: omap f intfs | None => omap f intfs end)
      by done.
    rewrite Hom.
    destruct (inferredEdge _ c networkName intf) as [e|].
    + destruct (IH (pushEdge e s) Hn Hg) as (Hn' & Hg' & He').
      split_and!; [done|done|]. rewrite He'. ctx_simpl. by rewrite <- app_assoc.
    + by apply IH.
Qed.

Lemma inferredInterfaces_spec privateNetworks t c s s' entry :
  processedNodes s = processedNodes c →
  gatewayIdByNetwork s = gatewayIdByNetwork c →
  inferredInterfaces privateNetworks t s entry = Ok s' →
  processedNodes s' = processedNodes c ∧
  gatewayIdByNetwork s' = gatewayIdByNetwork c ∧
  processedEdges s' =
    processedEdges s ++
    (if isRoot t entry.1 then
       match gateway entry.2 ≫= gw_interfaces with
       | Some intfs => omap (inferredEdge (networkNames privateNetworks) c entry.1) intfs
       | None => []
       end
     else []).
Proof.
  intros Hn Hg. destruct entry as [name network]. unfold inferredInterfaces. cbn [fst snd].
  destruct (isRoot t name); [|intros [= <-]; by rewrite app_nil_r].
  destruct (gateway network) as [gw|]; [|done]. cbn.
  destruct (gw_interfaces gw) as [intfs|]; [|intros [= <-]; by rewrite app_nil_r].
  intros [= <-]. rewrite Hg. by apply inferredInterface_fold.
Qed.

Lemma inferredInterfacePass_spec privateNetworks t c c' :
  inferredInterfacePass privateNetworks t c = Ok c' →
  processedNodes c' = processedNodes c ∧
  processedEdges c' = processedEdges c ++ inferredEdges privateNetworks t c.
Proof.
  unfold inferredInterfacePass, inferredEdges.
  assert (Hgen : ∀ entries s,
    processedNodes s = processedNodes c →
    gatewayIdByNetwork s = gatewayIdByNetwork c →
    foldM (inferredInterfaces privateNetworks t) s entries = Ok c' →
    processedNodes c' = processedNodes c ∧
    processedEdges c' = processedEdges s ++
      flat_map (λ entry : string * PrivateNetwork,
        if isRoot t entry.1 then
          match gateway entry.2 ≫= gw_interfaces with
          | Some intfs => omap (inferredEdge (networkNames privateNetworks) c entry.1) intfs
          | None => []
          end
        else []) entries).
  { induction entries as [|entry entries IH]; intros s Hn Hg Hrun.
    - injection Hrun as <-. by rewrite app_nil_r.
    - cbn [foldM] in Hrun.
      destruct (inferredInterfaces privateNetworks t s entry) as [s1| |] eqn:Hstep; try done.
      destruct (inferredInterfaces_spec _ _ c _ _ _ Hn Hg Hstep) as (Hn1 & Hg1 & He1).
      destruct (IH s1 Hn1 Hg1 Hrun) as [Hn' He']. split; [done|].
      rewrite He', He1. cbn [flat_map]. by rewrite <- app_assoc. }
  intros Hrun. by apply Hgen.
Qed.






(** ** Nesting of containers *)























(** ** CDN fan-out *)






Lemma refines_refl n : refines n n.
Proof. by split_and!. Qed.

Lemma refines_trans n1 n2 n3 : refines n1 n2 → refines n2 n3 → refines n1 n3.
Proof.
  intros (Hs & Ho & He) (Hs' & Ho' & He'). split_and!; [congruence|auto|auto].
Qed.

Lemma Marked_refl c : Marked c c.
Proof. apply Forall_Forall2_diag, Forall_forall. intros. apply refines_refl. Qed.


Lemma Marked_same c0 c c' :
  processedNodes c' = processedNodes c → Marked c0 c → Marked c0 c'.
Proof. unfold Marked. by intros ->. Qed.

Lemma Marked_updateNode c0 i f c :
  (∀ n, refines n (f n)) → Marked c0 c → Marked c0 (updateNode i f c).
Proof.
  intros Hf H. unfold Marked. ctx_simpl. apply Forall2_alter_r; [done|].
  intros x y _ _ Hxy. eapply refines_trans; [exact Hxy|apply Hf].
Qed.

Lemma refines_markCdnOrigin n : refines n (markCdnOrigin n).
Proof. by split_and!. Qed.

Lemma refines_markCdnEdge n : refines n (markCdnEdge n).
Proof. by split_and!. Qed.

Ltac marked_step :=
  lazymatch goal with
  | |- Marked _ (updateNode _ markCdnOrigin _) =>
      apply Marked_updateNode; [apply refines_markCdnOrigin|]
  | |- Marked _ (updateNode _ markCdnEdge _) =>
      apply Marked_updateNode; [apply refines_markCdnEdge|]
  | |- Marked _ (pushEdge _ ?c) => apply (Marked_same _ c); [reflexivity|]
  | |- Marked _ (withEdges _ ?c) => apply (Marked_same _ c); [reflexivity|]
  end.

Ltac marked_auto := repeat case_match; repeat marked_step; try done.

Lemma Marked_ubuntuCdnBlock c0 c : Marked c0 c → Marked c0 (ubuntuCdnBlock c).
Proof.
  intros H. unfold ubuntuCdnBlock. repeat case_match; try done.
  marked_step. apply (foldl_inv (Marked c0)); [intros; by marked_step|].
  apply (forEach_inv (Marked c0)); [intros; by marked_step|]. by marked_step.
Qed.

Lemma Marked_cdnTestBlock c0 now c : Marked c0 c → Marked c0 (cdnTestBlock now c).
Proof.
  intros H. unfold cdnTestBlock. repeat case_match; try done.
  apply (forEach_inv (Marked c0)); [intros; by repeat marked_step|]. by marked_step.
Qed.

Lemma Marked_cdnFinalTarget c0 si sourceNode targetName index c :
  Marked c0 c → Marked c0 (cdnFinalTarget si sourceNode targetName index c).
Proof. intros H. unfold cdnFinalTarget. marked_auto. Qed.

Lemma Marked_cdnFinalTargets c0 si sourceNode targets i c :
  Marked c0 c → Marked c0 (forEachFrom (cdnFinalTarget si sourceNode) i targets c).
Proof.
  intros H. apply (forEachFrom_inv (Marked c0)); [|done].
  intros. by apply Marked_cdnFinalTarget.
Qed.

Lemma Marked_cdnFinalSource c0 c source : Marked c0 c → Marked c0 (cdnFinalSource c source).
Proof.
  intros H. destruct source as [si sn]. unfold cdnFinalSource.
  repeat case_match; try done. by apply Marked_cdnFinalTargets.
Qed.

Lemma Marked_cdnFinalUbuntu c0 c : Marked c0 c → Marked c0 (cdnFinalUbuntu c).
Proof.
  intros H. unfold cdnFinalUbuntu. case_match; [|done]. case_match.
  apply (forEach_inv (Marked c0)); [|done]. intros. marked_auto.
Qed.

Lemma Marked_staticCdnBlock c0 c : Marked c0 c → Marked c0 (staticCdnBlock c).
Proof.
  intros H. unfold staticCdnBlock. case_match; [|done]. case_match.
  apply (forEach_inv (Marked c0)); [|done]. intros. marked_auto.
Qed.

Lemma Marked_widenHomeServerNetwork c0 c :
  Marked c0 c → Marked c0 (widenHomeServerNetwork c).
Proof.
  intros H. unfold widenHomeServerNetwork. case_match; [|done].
  apply Marked_updateNode; [|done]. intros m. case_match; [by split_and!|apply refines_refl].
Qed.

Lemma findIndex_skeletal p (ns ns' : list Node) :
  skeletal p → Forall2 refines ns ns' → findIndex p ns' = findIndex p ns.
Proof.
  intros Hp H. induction H as [|n n' ns ns' (Hs & _ & _) _ IH]; [done|].
  simpl. rewrite (Hp n n' Hs). by rewrite IH.
Qed.



Lemma findNode_of_index p c i n :
  findIndex p (processedNodes c) = Some i → processedNodes c !! i = Some n →
  findNode p c = Some (i, n).
Proof. intros Hi Hn. unfold findNode. rewrite Hi. cbn. by rewrite Hn. Qed.








Lemma filterIndicesFrom_complete {A} (p : A → bool) (xs : list A) k j x :
  xs !! j = Some x → p x = true → k + j ∈ filterIndicesFrom p k xs.
Proof.
  revert k j. induction xs as [|y xs IH]; intros k j Hj Hp; [done|].
  destruct j as [|j]; cbn [filterIndicesFrom].
  - injection Hj as ->. rewrite Hp, Nat.add_0_r. apply list_elem_of_here.
  - replace (k + S j) with (S k + j) by lia.
    destruct (p y); [apply list_elem_of_further|]; by apply IH.
Qed.

Lemma filterNodes_complete p ns i n :
  ns !! i = Some n → p n = true → (i, n) ∈ filterNodes p ns.
Proof.
  intros Hi Hp. unfold filterNodes. apply list_elem_of_omap.
  exists i. split; [|by rewrite Hi].
  by apply (filterIndicesFrom_complete p ns 0 i n).
Qed.


Lemma Marked_cdnFinalSources c0 c sources :
  Marked c0 c → Marked c0 (foldl cdnFinalSource c sources).
Proof.
  intros H. apply (foldl_inv (Marked c0)); [|done].
  intros. by apply Marked_cdnFinalSource.
Qed.




(** * Further properties *)

(** ** Container sizer, all arguments *)

Lemma gridRows_pos n : 0 < n → (1 <= gridRows n)%Z.
Proof.
  intros Hn. pose proof (gridRows_holds n). pose proof (devicesPerRow_bounds n). nia.
Qed.

Lemma gridRows_mono n m : n ≤ m → (gridRows n <= gridRows m)%Z.
Proof.
  intros Hle. destruct (decide (m ≤ 4)) as [Hm|Hm].
  - assert (Hn : n ≤ 4) by lia.
    do 5 (destruct m as [|m]; [by do 5 (destruct n as [|n]; [by vm_compute|try lia])|]).
    lia.
  - destruct (decide (n ≤ 4)) as [Hn|Hn].
    + transitivity 1%Z; [|apply gridRows_pos; lia].
      do 5 (destruct n as [|n]; [by vm_compute|]). lia.
    + unfold gridRows, devicesPerRow.
      replace (Nat.max 2 (Nat.min 4 n)) with 4 by lia.
      replace (Nat.max 2 (Nat.min 4 m)) with 4 by lia.
      apply Qceiling_resp_le. apply Qmult_le_compat_r; [|by vm_compute].
      unfold num. rewrite <- Zle_Qle. lia.
Qed.

Lemma gridCols_mono n m : n ≤ m → gridCols n ≤ gridCols m.
Proof. unfold gridCols, devicesPerRow. lia. Qed.

Lemma num_le a b : a ≤ b → (num a <= num b)%Q.
Proof. intros H. unfold num. rewrite <- Zle_Qle. lia. Qed.

Lemma Qmax_le_compat (a b a' b' : Q) :
  (a <= a')%Q → (b <= b')%Q → (Qmax a b <= Qmax a' b')%Q.
Proof.
  intros Ha Hb. apply Q.max_lub.
  - eapply Qle_trans; [exact Ha | apply Q.le_max_l].
  - eapply Qle_trans; [exact Hb | apply Q.le_max_r].
Qed.

(** The size before the scaling by the nesting level. *)
Lemma calculateGroupSize_level n hs level d isAS :
  let s0 := calculateGroupSize n hs 0 d isAS in
  let s := calculateGroupSize n hs level d isAS in
  width s = (if (0 <? level)%nat
             then width s0 * Qmax 0.85 (1 - num level * 0.08) else width s0)%Q ∧
  height s = (if (0 <? level)%nat
              then height s0 * Qmax 0.9 (1 - num level * 0.05) else height s0)%Q.
Proof.
  unfold calculateGroupSize. destruct hs, level as [|level]; by split.
Qed.



(** X2: with the other arguments fixed, a container for more devices
    is never narrower and never lower. *)
Theorem group_size_monotone (n m : nat) (hs : bool) (level d : nat) (isAS : bool) :
  n ≤ m →
  (width (calculateGroupSize n hs level d isAS) <=
   width (calculateGroupSize m hs level d isAS))%Q ∧
  (height (calculateGroupSize n hs level d isAS) <=
   height (calculateGroupSize m hs level d isAS))%Q.
Proof.
  intros Hle.
  destruct (calculateGroupSize_level n hs level d isAS) as [-> ->].
  destruct (calculateGroupSize_level m hs level d isAS) as [-> ->].
  assert (H0 : (width (calculateGroupSize n hs 0 d isAS) <=
                width (calculateGroupSize m hs 0 d isAS))%Q ∧
               (height (calculateGroupSize n hs 0 d isAS) <=
                height (calculateGroupSize m hs 0 d isAS))%Q).
  { unfold calculateGroupSize. cbn [Nat.ltb Nat.leb].
    assert (Hw : (Qmax (baseWidth isAS) ((num (gridCols n) + 2) * widthPerDevice isAS) <=
                  Qmax (baseWidth isAS) ((num (gridCols m) + 2) * widthPerDevice isAS))%Q).
    { apply Qmax_le_compat; [apply Qle_refl|].
      pose proof (num_le _ _ (gridCols_mono n m Hle)). destruct isAS; cbn; nra. }
    assert (Hh : (Qmax (baseHeight isAS)
                    (inject_Z (gridRows n) * heightPerDevice isAS + verticalMargin isAS) <=
                  Qmax (baseHeight isAS)
                    (inject_Z (gridRows m) * heightPerDevice isAS + verticalMargin isAS))%Q).
    { apply Qmax_le_compat; [apply Qle_refl|].
      pose proof (gridRows_mono n m Hle) as Hr. rewrite Zle_Qle in Hr.
      destruct isAS; cbn; nra. }
    pose proof (num_nonneg d) as Hd.
    destruct hs; cbn [width height]; [|done].
    split; (apply Qmax_le_compat; [|apply Qle_refl]); [nra|destruct isAS; nra]. }
  destruct H0 as [Hw Hh].
  pose proof (Q.le_max_l 0.85 (1 - num level * 0.08)).
  pose proof (Q.le_max_l 0.9 (1 - num level * 0.05)).
  destruct (0 <? level)%nat; split; try done; nra.
Qed.

Lemma group_size_monotone_witness :
  (width (calculateGroupSize 3 true 1 2 false) <=
   width (calculateGroupSize 9 true 1 2 false))%Q ∧
  (height (calculateGroupSize 3 true 1 2 false) <=
   height (calculateGroupSize 9 true 1 2 false))%Q.
Proof. apply (group_size_monotone 3 9 true 1 2 false). lia. Defined.

(** ** Topology resolver: the two maps *)

Lemma resolveNetwork_children names t name network p :
  childNetworksMap (resolveNetwork names t (name, network)) !! p =
  match parentInterface names network with
  | Some intf =>
      if decide (if_type intf = p)
      then Some (default [] (childNetworksMap t !! p) ++ [name])
      else childNetworksMap t !! p
  | None => childNetworksMap t !! p
  end.
Proof.
  unfold resolveNetwork. destruct (parentInterface names network) as [intf|]; cbn; [|done].
  rewrite lookup_insert. case_decide; by subst.
Qed.

Lemma resolve_fold_children names entries :
  ∀ t0, NoDup entries.*1 →
        (∀ k, k ∈ entries.*1 → parentNetworkMap t0 !! k = None) →
        consistent t0 →
        (∀ child p, parentNetworkMap t0 !! child = Some p →
                    ∃ l, childNetworksMap t0 !! p = Some l ∧ child ∈ l) →
        (∀ p l, childNetworksMap t0 !! p = Some l → l ≠ [] ∧ NoDup l) →
  let t := foldl (resolveNetwork names) t0 entries in
  (∀ child p, parentNetworkMap t !! child = Some p →
              ∃ l, childNetworksMap t !! p = Some l ∧ child ∈ l) ∧
  (∀ p l, childNetworksMap t !! p = Some l → l ≠ [] ∧ NoDup l).
Proof.
  induction entries as [|[name network] entries IH];
    intros t0 Hnd Hfresh Hcons Hcompl Hdup; cbn [foldl]; [done|].
  cbn in Hnd. apply NoDup_cons in Hnd as [Hname Hnd].
  assert (Hfresh0 : parentNetworkMap t0 !! name = None)
    by (apply Hfresh; cbn; apply list_elem_of_here).
  apply IH; [done| | | |].
  - intros k Hk. rewrite resolveNetwork_parent. case_decide; [by subst|].
    apply Hfresh. cbn. by apply list_elem_of_further.
  - by apply resolveNetwork_consistent.
  - intros child p. rewrite resolveNetwork_parent, resolveNetwork_children.
    destruct (parentInterface names network) as [intf|].
    + case_decide as Hc.
      * subst child. intros [= <-]. rewrite decide_True by done. eexists. split; [done|].
        apply elem_of_app. right. apply list_elem_of_here.
      * intros Hp. destruct (Hcompl _ _ Hp) as (l & Hl & Hin).
        case_decide; [|by eauto]. subst p. rewrite Hl. cbn. eexists. split; [done|].
        apply elem_of_app. by left.
    + intros Hp. case_decide; [congruence|]. by apply Hcompl.
  - intros p l. rewrite resolveNetwork_children.
    destruct (parentInterface names network) as [intf|]; [|by apply Hdup].
    case_decide as Hp; [|by apply Hdup]. intros [= <-]. split; [by destruct (default _ _)|].
    apply NoDup_app. split_and!; [| |apply NoDup_singleton].
    + destruct (childNetworksMap t0 !! p) as [old|] eqn:Hold; [|apply NoDup_nil_2].
      by destruct (Hdup _ _ Hold).
    + intros x Hx ->%list_elem_of_singleton.
      destruct (childNetworksMap t0 !! p) as [old|] eqn:Hold; [|by apply elem_of_nil in Hx].
      pose proof (Hcons _ _ _ Hold Hx). congruence.
Qed.

Lemma parentInterface_declared names network intf :
  parentInterface names network = Some intf →
  truthy (if_type intf) = true ∧ if_type intf ∈ names.
Proof.
  unfold parentInterface. destruct (gateway network) as [gw|]; [|done]. cbn.
  destruct (gw_interfaces gw) as [intfs|]; [|done]. cbn.
  intros [_ H]%find_some. unfold namesNetwork in H.
  apply andb_true_iff in H as [Ht Hin]. by apply bool_decide_eq_true in Hin.
Qed.

(** X3: for a declaration with pairwise distinct network names, the
    children map of the resolver is the inverse of its parent map: a
    network is listed among the children of exactly the parent recorded
    for it; every list of children is non-empty and without repetition;
    and a recorded parent is a non-empty name of a declared network,
    recorded for a declared network. *)
Theorem resolver_maps_inverse (privateNetworks : list (string * PrivateNetwork)) :
  NoDup (networkNames privateNetworks) →
  let t := resolveTopology privateNetworks in
  (∀ child p,
     parentNetworkMap t !! child = Some p ↔
     ∃ l, childNetworksMap t !! p = Some l ∧ child ∈ l) ∧
  (∀ p l, childNetworksMap t !! p = Some l → l ≠ [] ∧ NoDup l) ∧
  (∀ child p,
     parentNetworkMap t !! child = Some p →
     truthy p = true ∧ p ∈ networkNames privateNetworks ∧
     child ∈ networkNames privateNetworks).
Proof.
  intros Hnd t.
  destruct (resolveTopology_spec privateNetworks Hnd) as [Hcons Hpar].
  destruct (resolve_fold_children (networkNames privateNetworks) privateNetworks
              {| networkDeviceCounts := ∅; parentNetworkMap := ∅; childNetworksMap := ∅ |})
    as [Hcompl Hdup]; try done.
  split_and!.
  - intros child p. split; [apply Hcompl|]. intros (l & Hl & Hin). by eapply Hcons.
  - apply Hdup.
  - intros child p Hp.
    pose proof (parent_declared _ _ _ Hnd Hp) as Hchild.
    apply list_elem_of_fmap in Hchild as ([name network] & Heq & Hin).
    cbn in Heq. subst child. fold t in Hpar. rewrite (Hpar _ _ Hin) in Hp. cbn in Hp.
    destruct (parentInterface _ network) as [intf|] eqn:Hintf; [|done].
    injection Hp as <-. destruct (parentInterface_declared _ _ _ Hintf).
    split_and!; [done|done|]. apply list_elem_of_fmap. by exists (name, network).
Qed.

Lemma resolver_maps_inverse_witness :
  parentNetworkMap (resolveTopology (private networkConfig)) !! "home_server_network"
    = Some "home_network" ↔
  ∃ l, childNetworksMap (resolveTopology (private networkConfig)) !! "home_network" = Some l ∧
       "home_server_network" ∈ l.
Proof.
  apply (resolver_maps_inverse (private networkConfig)).
  apply (bool_decide_unpack _). by vm_compute.
Defined.

(** ** When the synthesis fails *)





(** The value the first step of a call computes never throws. *)
Lemma maxSubnetDepth_cases privateNetworks t name :
  ∃ o, (if bool_decide (childrenOf t name = []) then Ok 0
        else match calculateMaxNetworkDepth (depthFuel privateNetworks) name
                     (childNetworksMap t) with
             | Some d => Ok d
             | None => Diverge
             end) = from_option Ok Diverge o.
Proof. case_bool_decide; [by exists (Some 0)|]. by eexists. Qed.







(** ** What the CDN blocks leave alone *)

Lemma sizeGrows_refl s : sizeGrows s s.
Proof. destruct s; [split; apply Qle_refl|done]. Qed.

Lemma sizeGrows_trans s1 s2 s3 : sizeGrows s1 s2 → sizeGrows s2 s3 → sizeGrows s1 s3.
Proof.
  destruct s1, s2, s3; try done. intros [] []. split; by eapply Qle_trans.
Qed.

Lemma flagged_refl n : flagged n n.
Proof. split_and!; try done. apply sizeGrows_refl. Qed.

Lemma flagged_trans n1 n2 n3 : flagged n1 n2 → flagged n2 n3 → flagged n1 n3.
Proof.
  intros (?&?&?&?&?&?&?&?&?&?) (?&?&?&?&?&?&?&?&?&?).
  split_and!; try congruence; try auto. by eapply sizeGrows_trans.
Qed.

Lemma flagged_markCdnOrigin n : flagged n (markCdnOrigin n).
Proof. split_and!; try done. apply sizeGrows_refl. Qed.

Lemma flagged_markCdnEdge n : flagged n (markCdnEdge n).
Proof. split_and!; try done. apply sizeGrows_refl. Qed.

Lemma Flagged_same (ns0 : list Node) c c' :
  processedNodes c' = processedNodes c →
  Forall2 flagged ns0 (processedNodes c) → Forall2 flagged ns0 (processedNodes c').
Proof. by intros ->. Qed.

Lemma Flagged_updateNode (ns0 : list Node) i f c :
  (∀ n, flagged n (f n)) →
  Forall2 flagged ns0 (processedNodes c) →
  Forall2 flagged ns0 (processedNodes (updateNode i f c)).
Proof.
  intros Hf H. ctx_simpl. apply Forall2_alter_r; [done|].
  intros x y _ _ Hxy. eapply flagged_trans; [exact Hxy|apply Hf].
Qed.

Ltac flagged_step :=
  lazymatch goal with
  | |- Forall2 flagged _ (processedNodes (updateNode _ markCdnOrigin _)) =>
      apply Flagged_updateNode; [apply flagged_markCdnOrigin|]
  | |- Forall2 flagged _ (processedNodes (updateNode _ markCdnEdge _)) =>
      apply Flagged_updateNode; [apply flagged_markCdnEdge|]
  | |- Forall2 flagged _ (processedNodes (pushEdge _ ?c)) =>
      apply (Flagged_same _ c); [reflexivity|]
  | |- Forall2 flagged _ (processedNodes (withEdges _ ?c)) =>
      apply (Flagged_same _ c); [reflexivity|]
  end.

Ltac flagged_auto := repeat case_match; repeat flagged_step; try done.

Lemma Flagged_ubuntuCdnBlock ns0 c :
  Forall2 flagged ns0 (processedNodes c) →
  Forall2 flagged ns0 (processedNodes (ubuntuCdnBlock c)).
Proof.
  intros H. unfold ubuntuCdnBlock. repeat case_match; try done.
  flagged_step.
  apply (foldl_inv (λ s, Forall2 flagged ns0 (processedNodes s))); [intros; by flagged_step|].
  apply (forEach_inv (λ s, Forall2 flagged ns0 (processedNodes s)));
    [intros; by flagged_step|].
  by flagged_step.
Qed.

Lemma Flagged_cdnTestBlock ns0 now c :
  Forall2 flagged ns0 (processedNodes c) →
  Forall2 flagged ns0 (processedNodes (cdnTestBlock now c)).
Proof.
  intros H. unfold cdnTestBlock. repeat case_match; try done.
  apply (forEach_inv (λ s, Forall2 flagged ns0 (processedNodes s)));
    [intros; by repeat flagged_step|].
  by flagged_step.
Qed.

Lemma Flagged_cdnFinalSource ns0 c source :
  Forall2 flagged ns0 (processedNodes c) →
  Forall2 flagged ns0 (processedNodes (cdnFinalSource c source)).
Proof.
  intros H. destruct source as [si sn]. unfold cdnFinalSource.
  repeat case_match; try done.
  apply (forEach_inv (λ s, Forall2 flagged ns0 (processedNodes s))); [|done].
  intros. unfold cdnFinalTarget. flagged_auto.
Qed.

Lemma Flagged_cdnFinalPass ns0 sources c :
  Forall2 flagged ns0 (processedNodes c) →
  Forall2 flagged ns0 (processedNodes (cdnFinalPass sources c)).
Proof.
  intros H. unfold cdnFinalPass. case_match; [done|].
  apply (foldl_inv (λ s, Forall2 flagged ns0 (processedNodes s)));
    [intros; by apply Flagged_cdnFinalSource|].
  unfold cdnFinalUbuntu. case_match; [|done]. case_match.
  apply (forEach_inv (λ s, Forall2 flagged ns0 (processedNodes s))); [|done].
  intros. flagged_auto.
Qed.

Lemma Flagged_staticCdnBlock ns0 c :
  Forall2 flagged ns0 (processedNodes c) →
  Forall2 flagged ns0 (processedNodes (staticCdnBlock c)).
Proof.
  intros H. unfold staticCdnBlock. case_match; [|done]. case_match.
  apply (forEach_inv (λ s, Forall2 flagged ns0 (processedNodes s))); [|done].
  intros. flagged_auto.
Qed.

Lemma Flagged_widenHomeServerNetwork ns0 c :
  Forall2 flagged ns0 (processedNodes c) →
  Forall2 flagged ns0 (processedNodes (widenHomeServerNetwork c)).
Proof.
  intros H. unfold widenHomeServerNetwork. case_match; [|done].
  apply Flagged_updateNode; [|done]. intros m.
  destruct (n_style m) as [sz|] eqn:Hsz; [|apply flagged_refl].
  split_and!; try done. cbn. rewrite Hsz. split; apply Q.le_max_l.
Qed.

Lemma Flagged_cdnBlocks now c :
  Forall2 flagged (processedNodes c) (processedNodes (cdnBlocks now c)).
Proof.
  unfold cdnBlocks.
  apply Flagged_widenHomeServerNetwork, Flagged_staticCdnBlock, Flagged_cdnFinalPass,
    Flagged_cdnTestBlock, Flagged_ubuntuCdnBlock.
  apply Forall_Forall2_diag, Forall_forall. intros. apply flagged_refl.
Qed.

(** X5: the CDN blocks at the end of the effect add, remove and reorder
    no node; of a node they change neither identifier, type, position,
    parent, label nor diversion; they only set the CDN-origin and
    CDN-edge flags (never clear one) and enlarge the size of a
    container (never shrink one). *)
Theorem cdn_blocks_only_flag (now : nat → N) (c : Ctx) :
  Forall2 flagged (processedNodes c) (processedNodes (cdnBlocks now c)).
Proof. apply Flagged_cdnBlocks. Qed.

(** ** What the stitching passes leave alone *)

Lemma appends_refl c : appends c c.
Proof. split; [done|]. exists []. by rewrite app_nil_r. Qed.

Lemma appends_pushEdge c0 e c : appends c0 c → appends c0 (pushEdge e c).
Proof.
  intros [Hn [new He]]. split; [done|]. exists (new ++ [e]). ctx_simpl.
  by rewrite He, app_assoc.
Qed.

Lemma appends_same c0 c c' :
  processedNodes c' = processedNodes c → processedEdges c' = processedEdges c →
  appends c0 c → appends c0 c'.
Proof. intros Hn He [? ?]. split; [by rewrite Hn|by rewrite He]. Qed.

Ltac appends_step :=
  lazymatch goal with
  | |- appends _ (pushEdge _ _) => apply appends_pushEdge
  | |- appends _ (withHandled _ ?c) => apply (appends_same _ c); [reflexivity|reflexivity|]
  end.

Ltac appends_auto := repeat case_match; repeat appends_step; try done.

Lemma appends_routerDiversionPass c0 c :
  appends c0 c → appends c0 (routerDiversionPass c).
Proof.
  intros H. unfold routerDiversionPass. apply (foldl_inv (appends c0)); [|done].
  intros rd s _ Hs. unfold routerDiversionStep. appends_auto.
Qed.

Lemma appends_deviceDiversionPass c0 c :
  appends c0 c → appends c0 (deviceDiversionPass c).
Proof.
  intros H. unfold deviceDiversionPass. apply (foldl_inv (appends c0)); [|done].
  intros n s _ Hs. unfold deviceDiversion.
  repeat case_match; repeat appends_step; try done.
  apply (forEach_inv (appends c0)); [|done].
  intros x i v _ Hv. unfold cdnRegular. appends_auto.
Qed.

Lemma appends_stitch c :
  appends c
    (specialConnections
       (deviceDiversionPass
          (routerDiversionPass (internalTestEdge (cloudInternalEdge c))))).
Proof.
  assert (H1 : appends c (cloudInternalEdge c))
    by (unfold cloudInternalEdge; repeat case_match; repeat appends_step;
        apply appends_refl).
  assert (H2 : appends c (internalTestEdge (cloudInternalEdge c)))
    by (unfold internalTestEdge; repeat case_match; repeat appends_step; done).
  pose proof (appends_deviceDiversionPass _ _ (appends_routerDiversionPass _ _ H2)) as H4.
  unfold specialConnections. repeat case_match; repeat appends_step; done.
Qed.

(** X6: the passes that stitch the structure together (the two
    name-literal links of [internal_router], the router diversions, the
    device diversions and the two links of [device3]) change no node
    and no edge already emitted: the node list is returned as it was and
    the edge list is only extended at its end. *)
Theorem stitching_appends (c : Ctx) :
  appends c
    (specialConnections
       (deviceDiversionPass
          (routerDiversionPass (internalTestEdge (cloudInternalEdge c))))).
Proof. apply appends_stitch. Qed.

(** ** The forced test links *)

Lemma forEachFrom_pushes {A} (f : A → nat → Ctx → Ctx) (g : nat → A → Edge) xs :
  (∀ x i s, processedEdges (f x i s) = processedEdges s ++ [g i x]) →
  ∀ i s, processedEdges (forEachFrom f i xs s) =
         processedEdges s ++ imap (λ j, g (i + j)) xs.
Proof.
  intros Hf. induction xs as [|x xs IH]; intros i s; cbn [forEachFrom imap].
  - by rewrite app_nil_r.
  - rewrite IH, Hf, <- app_assoc. cbn. rewrite Nat.add_0_r. do 2 f_equal.
    apply imap_ext. intros j y _. cbn. f_equal. lia.
Qed.

(** The edges after the test block, when it runs. *)
Lemma cdnTestBlock_edges now c ui homeServerUbuntu :
  findById ubuntuId c = Some (ui, homeServerUbuntu) →
  filterNodes oracleById (processedNodes c) ≠ [] →
  processedEdges (cdnTestBlock now c) =
    List.filter (λ edge, negb (isCdnEdgeId edge)) (processedEdges c) ++
    imap (λ index (oracle : nat * Node),
            testEdge now (n_id homeServerUbuntu) (n_id oracle.2) index)
      (filterNodes oracleById (processedNodes c)).
Proof.
  intros Hu Ho. unfold cdnTestBlock. rewrite Hu.
  rewrite bool_decide_eq_false_2 by done. unfold forEach.
  rewrite (forEachFrom_pushes _
             (λ index (oracle : nat * Node),
                testEdge now (n_id homeServerUbuntu) (n_id oracle.2) index)).
  - done.
  - intros x i s. by ctx_simpl.
Qed.

Lemma prefix_weaken (a b s : string) :
  String.prefix (a +:+ b) s = true → String.prefix a s = true.
Proof.
  revert s. induction a as [|x a IH]; intros s; [by destruct s|].
  change (String x a +:+ b) with (String x (a +:+ b)).
  destruct s as [|y s]; [done|]. cbn.
  destruct (Ascii.ascii_dec x y); [apply IH|done].
Qed.

Lemma prefix_includes (p s : string) : String.prefix p s = true → includes s p = true.
Proof.
  intros H. destruct s as [|a s].
  - by destruct p.
  - change (includes (String a s) p) with (String.prefix p (String a s) || includes s p).
    by rewrite H.
Qed.

Lemma earlyCdnId_isCdnEdgeId e : isCdnEdgeId e = false → earlyCdnId (e_id e) = false.
Proof.
  unfold isCdnEdgeId, earlyCdnId. intros Hno.
  assert (Hp : String.prefix "edge-cdn-" (e_id e) = false).
  { destruct (String.prefix "edge-cdn-" (e_id e)) eqn:Hp; [|done].
    apply prefix_includes in Hp. congruence. }
  assert (Hw : ∀ b, String.prefix ("edge-cdn-" +:+ b) (e_id e) = false).
  { intros b. apply not_true_is_false. intros Hb.
    apply prefix_weaken in Hb. congruence. }
  pose proof (Hw "regular-") as H1. pose proof (Hw "loose-") as H2.
  pose proof (Hw "direct-") as H3.
  change ("edge-cdn-" +:+ "regular-") with "edge-cdn-regular-" in H1.
  change ("edge-cdn-" +:+ "loose-") with "edge-cdn-loose-" in H2.
  change ("edge-cdn-" +:+ "direct-") with "edge-cdn-direct-" in H3.
  by rewrite H1, H2, H3.
Qed.

Lemma noEarlyCdn_pushEdge e c :
  earlyCdnId (e_id e) = false → noEarlyCdn c → noEarlyCdn (pushEdge e c).
Proof.
  intros He Hc x. ctx_simpl.
  intros [Hx|Hx%list_elem_of_singleton]%elem_of_app; [by apply Hc|by subst].
Qed.

Lemma noEarlyCdn_insertEdge i e c :
  earlyCdnId (e_id e) = false → noEarlyCdn c → noEarlyCdn (withEdges <[i := e]> c).
Proof. intros He Hc x. ctx_simpl. intros [->|Hx]%elem_of_insert_list; auto. Qed.

Lemma noEarlyCdn_deleteEdge i c : noEarlyCdn c → noEarlyCdn (withEdges (delete i) c).
Proof. intros Hc x. ctx_simpl. intros Hx%list_elem_of_delete_inv. auto. Qed.

Lemma noEarlyCdn_updateNode i f c : noEarlyCdn c → noEarlyCdn (updateNode i f c).
Proof. done. Qed.

Ltac early_step :=
  lazymatch goal with
  | |- noEarlyCdn (updateNode _ _ _) => apply noEarlyCdn_updateNode
  | |- noEarlyCdn (pushEdge _ _) => apply noEarlyCdn_pushEdge; [by vm_compute|]
  | |- noEarlyCdn (withEdges (insert _ _) _) =>
      apply noEarlyCdn_insertEdge; [by vm_compute|]
  | |- noEarlyCdn (withEdges (delete _) _) => apply noEarlyCdn_deleteEdge
  end.

Lemma noEarlyCdn_cdnFinalPass sources c : noEarlyCdn c → noEarlyCdn (cdnFinalPass sources c).
Proof.
  intros H. unfold cdnFinalPass. case_match; [done|].
  apply (foldl_inv noEarlyCdn).
  - intros [si sn] s _ Hs. unfold cdnFinalSource. repeat case_match; try done.
    apply (forEach_inv noEarlyCdn); [|done].
    intros x i v _ Hv. unfold cdnFinalTarget, cdnFinalEdgeId.
    repeat case_match; repeat early_step; done.
  - unfold cdnFinalUbuntu. case_match; [|done]. case_match.
    apply (forEach_inv noEarlyCdn); [|done].
    intros x i v _ Hv. repeat case_match; repeat early_step; done.
Qed.

Lemma noEarlyCdn_staticCdnBlock c : noEarlyCdn c → noEarlyCdn (staticCdnBlock c).
Proof.
  intros H. unfold staticCdnBlock. case_match; [|done]. case_match.
  apply (forEach_inv noEarlyCdn); [|done].
  intros x i v _ Hv. unfold staticEdge. repeat case_match; repeat early_step; done.
Qed.

Lemma skeletal_hasId id : skeletal (λ node, String.eqb (n_id node) id).
Proof. intros n n' [= Hid _ _]. by rewrite Hid. Qed.

Lemma skeletal_oracleById : skeletal oracleById.
Proof. intros n n' [= Hid _ _]. unfold oracleById. by rewrite Hid. Qed.

Lemma findById_Marked id c c' :
  Marked c c' → id ∈ ids c' → is_Some (findById id c).
Proof.
  intros HM Hid. unfold findById.
  destruct (findIndex (λ node, String.eqb (n_id node) id) (processedNodes c)) as [i|] eqn:Hi.
  - destruct (findIndex_Some _ _ _ Hi) as (n & Hn & _).
    rewrite (findNode_of_index _ _ _ _ Hi Hn). by eexists.
  - rewrite <- (findIndex_skeletal _ _ _ (skeletal_hasId id) HM) in Hi.
    apply list_elem_of_fmap in Hid as (n' & -> & Hin).
    pose proof (findIndex_None _ _ Hi _ Hin) as Hno. cbn in Hno.
    by rewrite String.eqb_refl in Hno.
Qed.

(** X7: when the output holds the node of the Ubuntu server and at
    least one node whose identifier mentions oracle, dubai or osaka, no
    edge of the output is one of the CDN edges built before the test
    block, whatever node they started from: no edge identifier starts
    with [edge-cdn-regular-], [edge-cdn-loose-] or [edge-cdn-direct-]. *)
Theorem test_links_supersede (config : NetworkConfig) (now : nat → N)
    (r : NetworkDataResult) :
  useNetworkData config now = Some r →
  ubuntuId ∈ n_id <$> nodes r →
  (∃ n, n ∈ nodes r ∧ oracleById n = true) →
  ∀ e, e ∈ edges r → earlyCdnId (e_id e) = false.
Proof.
  intros Hrun Hu (o & Ho & Hoid). unfold useNetworkData in Hrun.
  destruct (synthesize config now) as [c5| |] eqn:Hsyn;
    [|injection Hrun as <-; by apply elem_of_nil in Ho|done].
  injection Hrun as <-. cbn [nodes edges] in *.
  unfold synthesize in Hsyn. destruct (emitStructure config) as [c| |]; [|done|done].
  cbn [mbind Outcome_bind] in Hsyn. apply Ok_inj in Hsyn. subst c5.
  unfold cdnBlocks in *.
  set (c1 := ubuntuCdnBlock c) in *.
  set (sources := filterNodes isCdnSource (processedNodes c1)) in *.
  set (c2 := cdnTestBlock now c1) in *.
  set (c3 := cdnFinalPass sources c2) in *.
  set (c4 := staticCdnBlock c3) in *.
  assert (M15 : Marked c1 (widenHomeServerNetwork c4)).
  { apply Marked_widenHomeServerNetwork, Marked_staticCdnBlock.
    unfold c3, cdnFinalPass. case_match; [apply Marked_cdnTestBlock, Marked_refl|].
    apply Marked_cdnFinalSources, Marked_cdnFinalUbuntu, Marked_cdnTestBlock, Marked_refl. }
  destruct (findById_Marked ubuntuId _ _ M15 Hu) as [[ui u] Hfind].
  assert (Horacle : filterNodes oracleById (processedNodes c1) ≠ []).
  { apply list_elem_of_lookup in Ho as [j Hj].
    destruct (Forall2_lookup_r _ _ _ _ _ M15 Hj) as (o1 & Ho1 & Hsk & _).
    assert (Hin : (j, o1) ∈ filterNodes oracleById (processedNodes c1)).
    { apply filterNodes_complete; [done|].
      by rewrite <- (skeletal_oracleById o1 o Hsk). }
    intros E. rewrite E in Hin. by apply elem_of_nil in Hin. }
  assert (H2 : noEarlyCdn c2).
  { intros e. unfold c2. rewrite (cdnTestBlock_edges now c1 ui u Hfind Horacle).
    intros [[_ Hf]%elem_of_List_filter|Hx]%elem_of_app.
    - apply earlyCdnId_isCdnEdgeId. by apply negb_true_iff in Hf.
    - apply elem_of_lookup_imap in Hx as (i & x & -> & _). by vm_compute. }
  assert (H4 : noEarlyCdn c4) by (by apply noEarlyCdn_staticCdnBlock, noEarlyCdn_cdnFinalPass).
  intros e He. apply H4. revert He. unfold widenHomeServerNetwork. by case_match.
Qed.

Lemma test_links_supersede_witness :
  ∃ r, useNetworkData networkConfig (constantClock 0) = Some r ∧
       ∀ e, e ∈ edges r → earlyCdnId (e_id e) = false.
Proof.
  eexists. split; [by vm_compute|].
  apply (test_links_supersede networkConfig (constantClock 0)).
  - by vm_compute.
  - apply (bool_decide_unpack _). by vm_compute.
  - eexists. split; [apply (list_elem_of_lookup_2 _ 8); by vm_compute|by vm_compute].
Defined.

(** ** Names on the node components *)









(** ** The nesting level of a network *)






(** ** Parent references *)

Lemma Parented_same c c' :
  processedNodes c' = processedNodes c → networkNodes c' = networkNodes c →
  Parented c → Parented c'.
Proof. intros Hn Hi [Hp Hx]. split; rewrite ?Hn, ?Hi; done. Qed.

Lemma ids_lookup c p : p ∈ ids c ↔ ∃ j m, processedNodes c !! j = Some m ∧ n_id m = p.
Proof.
  unfold ids. rewrite list_elem_of_fmap. split.
  - intros (m & -> & [j Hj]%list_elem_of_lookup). by exists j, m.
  - intros (j & m & Hj & <-). exists m. split; [done|]. by eapply list_elem_of_lookup_2.
Qed.

Lemma Parented_pushed n c :
  (∀ p, n_parentId n = Some p → p ∈ ids c) →
  ∀ i m p, (processedNodes c ++ [n]) !! i = Some m → n_parentId m = Some p →
    (∀ i' m' p', processedNodes c !! i' = Some m' → n_parentId m' = Some p' →
       ∃ j x, processedNodes c !! j = Some x ∧ n_id x = p' ∧
              (n_id m' ≠ "network-test_network" → j < i')) →
    ∃ j x, (processedNodes c ++ [n]) !! j = Some x ∧ n_id x = p ∧
           (n_id m ≠ "network-test_network" → j < i).
Proof.
  intros Hn i m p Hi Hpar Hp.
  apply lookup_app_Some in Hi as [Hi|[Hlen Hi]].
  - destruct (Hp _ _ _ Hi Hpar) as (j & x & Hj & Hid & Hlt).
    exists j, x. split; [by apply lookup_app_l_Some|done].
  - apply list_lookup_singleton_Some in Hi as [Hi ->].
    destruct (proj1 (ids_lookup c p) (Hn p Hpar)) as (j & x & Hj & Hid).
    exists j, x. split; [by apply lookup_app_l_Some|]. split; [done|].
    intros _. apply lookup_lt_Some in Hj. lia.
Qed.

Lemma Parented_pushNode n c :
  (∀ p, n_parentId n = Some p → p ∈ ids c) → Parented c → Parented (pushNode n c).
Proof.
  intros Hn [Hp Hx]. split; ctx_simpl.
  - intros i m p Hi Hpar. by eapply Parented_pushed.
  - intros name i Hi. destruct (Hx name i Hi) as (m & Hm & Hid).
    exists m. split; [by apply lookup_app_l_Some|done].
Qed.

Lemma Parented_pushNetwork n name c :
  n_id n = "network-" +:+ name →
  (∀ p, n_parentId n = Some p → p ∈ ids c) →
  Parented c →
  Parented (pushNode n (withNetworkNodes <[name := length (processedNodes c)]> c)).
Proof.
  intros Hid Hn [Hp Hx]. split; ctx_simpl.
  - intros i m p Hi Hpar. by eapply Parented_pushed.
  - intros name' i. rewrite lookup_insert. case_decide.
    + intros [= <-]. subst name'. exists n. split; [|done].
      by rewrite lookup_app_r, Nat.sub_diag.
    + intros Hi. destruct (Hx name' i Hi) as (m & Hm & Hid').
      exists m. split; [by apply lookup_app_l_Some|done].
Qed.

Lemma lookup_alter_id (f : Node → Node) i (l : list Node) j m :
  (∀ n, n_id (f n) = n_id n) → l !! j = Some m →
  ∃ m', alter f i l !! j = Some m' ∧ n_id m' = n_id m.
Proof.
  intros Hf Hj. destruct (decide (i = j)) as [->|Hne].
  - exists (f m). by rewrite list_lookup_alter_eq, Hj.
  - exists m. by rewrite list_lookup_alter_ne.
Qed.

Lemma lookup_alter_inv {A} (f : A → A) i (l : list A) j y :
  alter f i l !! j = Some y →
  ∃ x, l !! j = Some x ∧ (y = x ∨ (i = j ∧ y = f x)).
Proof.
  destruct (decide (i = j)) as [->|Hne].
  - rewrite list_lookup_alter_eq. destruct (l !! j) as [x|]; [|done].
    intros [= <-]. exists x. split; [done|]. by right.
  - rewrite list_lookup_alter_ne by done. intros Hj. exists y. split; [done|]. by left.
Qed.

Lemma Parented_updateNode i f c :
  (∀ n, n_id (f n) = n_id n ∧ n_parentId (f n) = n_parentId n) →
  Parented c → Parented (updateNode i f c).
Proof.
  intros Hf [Hp Hx]. split; ctx_simpl.
  - intros k n p Hk Hpar.
    apply lookup_alter_inv in Hk as (old & Hold & Hn).
    assert (Hsame : n_id n = n_id old ∧ n_parentId n = n_parentId old).
    { destruct Hn as [->|[_ ->]]; [done|apply Hf]. }
    destruct Hsame as [Hid Hpa]. rewrite Hpa in Hpar. rewrite Hid.
    destruct (Hp _ _ _ Hold Hpar) as (j & m & Hj & Hm & Hlt).
    destruct (lookup_alter_id f i _ j m (λ x, proj1 (Hf x)) Hj) as (m' & Hj' & Hid').
    exists j, m'. split; [done|]. split; [congruence|done].
  - intros name j Hj. destruct (Hx name j Hj) as (m & Hm & Hid).
    destruct (lookup_alter_id f i _ j m (λ x, proj1 (Hf x)) Hm) as (m' & Hj' & Hid').
    exists m'. split; [done|congruence].
Qed.

Ltac parented_step :=
  lazymatch goal with
  | |- Parented (updateNode _ _ _) => apply Parented_updateNode; [done|]
  | |- Parented (pushEdge _ ?c) => apply (Parented_same c); [reflexivity|reflexivity|]
  | |- Parented (withEdges _ ?c) => apply (Parented_same c); [reflexivity|reflexivity|]
  | |- Parented (withNodeIdMap _ ?c) => apply (Parented_same c); [reflexivity|reflexivity|]
  | |- Parented (withHandled _ ?c) => apply (Parented_same c); [reflexivity|reflexivity|]
  | |- Parented (withStartX _ ?c) => apply (Parented_same c); [reflexivity|reflexivity|]
  | |- Parented (withRouterIds _ ?c) => apply (Parented_same c); [reflexivity|reflexivity|]
  | |- Parented (withGatewayIds _ ?c) => apply (Parented_same c); [reflexivity|reflexivity|]
  | |- Parented (withRouterDiversions _ ?c) =>
      apply (Parented_same c); [reflexivity|reflexivity|]
  end.

Ltac parented_auto := repeat case_match; repeat parented_step; try done.

(** A node pushed under a parent that is in the list. *)
Ltac parented_push :=
  lazymatch goal with
  | |- Parented (pushNode _ _) =>
      apply Parented_pushNode;
      [let p := fresh in let H := fresh in
       intros p H; cbn in H; first [discriminate H | injection H as <-; ids_solve]|]
  end.

Lemma Parented_initialCtx : Parented initialCtx.
Proof.
  split.
  - intros i n p Hi Hpar. cbn in Hi.
    destruct i as [|[|i]]; cbn in Hi; [by injection Hi as <-|by injection Hi as <-|done].
  - intros name i Hi. cbn in Hi. by rewrite lookup_empty in Hi.
Qed.

Lemma ids_asDevice_mono asNumber asId asCloudId deviceSpacing device deviceIndex c x :
  x ∈ ids c → x ∈ ids (asDevice asNumber asId asCloudId deviceSpacing device deviceIndex c).
Proof. intros Hx. unfold asDevice. repeat case_match; ids_solve. Qed.

Lemma Parented_asPass asGroups c : Parented c → Parented (asPass asGroups c).
Proof.
  intros Hc. unfold asPass.
  apply (forEach_inv (λ xc : Q * Ctx, Parented xc.2)); [|done].
  intros as_ i [x s] _ Hs. unfold asGroup. cbn [snd] in *.
  set (asId := "as-" +:+ as_number as_).
  match goal with
  | |- Parented (forEach ?f ?l ?s0) =>
      cut (asId ∈ ids (forEach f l s0) ∧ Parented (forEach f l s0)); [by intros []|];
      apply (forEach_inv (λ u, asId ∈ ids u ∧ Parented u))
  end.
  - intros device j u _ [Hin Hu]. split; [by apply ids_asDevice_mono|].
    unfold asDevice. repeat case_match; repeat parented_step; parented_push;
      repeat parented_step; done.
  - split; [ids_solve|]. apply Parented_pushNode; [done|done].
Qed.

Lemma Parented_emitDevices name networkId gatewayId size network c :
  networkId ∈ ids c → Parented c →
  networkId ∈ ids (emitDevices name networkId gatewayId size network c) ∧
  Parented (emitDevices name networkId gatewayId size network c).
Proof.
  intros Hin Hc. unfold emitDevices. destruct (devices network) as [devs|]; [|done].
  apply (forEach_inv (λ s, networkId ∈ ids s ∧ Parented s)).
  - intros d i s _ [Hn Hs]. split; [by apply ids_routerDevice_mono|].
    unfold routerDevice.
    repeat case_match; repeat parented_step; try done; parented_push;
      repeat parented_step; done.
  - apply (forEach_inv (λ s, networkId ∈ ids s ∧ Parented s)); [|done].
    intros d i s _ [Hn Hs]. split; [by apply ids_regularDevice_mono|].
    unfold regularDevice, upgradeDeviceEdge.
    repeat case_match; repeat parented_step; parented_push; by repeat parented_step.
Qed.

Lemma ids_foldl_gatewayUplink gatewayId intfs c x :
  x ∈ ids c → x ∈ ids (foldl (gatewayUplink gatewayId) c intfs).
Proof.
  revert c. apply (foldl_inv (λ s, x ∈ ids s)).
  intros intf s _ Hs. unfold gatewayUplink. repeat case_match; ids_solve.
Qed.

Lemma Parented_emitGateway name networkId gatewayId gw c :
  networkId ∈ ids c → Parented c →
  networkId ∈ ids (emitGateway name networkId gatewayId gw c) ∧
  Parented (emitGateway name networkId gatewayId gw c).
Proof.
  intros Hin Hc. unfold emitGateway.
  case_bool_decide; [done|]. case_bool_decide; [done|].
  set (c1 := pushNode _ _).
  assert (H1 : networkId ∈ ids c1 ∧ Parented c1).
  { unfold c1. split; [ids_solve|]. parented_push. by parented_step. }
  clearbody c1. destruct H1 as [Hi1 Hc1].
  assert (H2 : ∀ s, networkId ∈ ids s ∧ Parented s →
               networkId ∈ ids (recordRouterDiversion gatewayId (gw_diversion gw) s) ∧
               Parented (recordRouterDiversion gatewayId (gw_diversion gw) s)).
  { intros s [Hi Hs]. unfold recordRouterDiversion.
    repeat case_match; (split; [ids_solve|parented_auto]). }
  apply H2. destruct (gw_interfaces gw) as [intfs|]; [|done].
  split; [by apply ids_foldl_gatewayUplink|].
  apply (foldl_inv Parented); [|done].
  intros intf s _ Hs. unfold gatewayUplink. parented_auto.
Qed.

Lemma Parented_enterNetwork name network gw parentId level size c :
  (∀ p, parentId = Some p → p ∈ ids c) → Parented c →
  "network-" +:+ name ∈ ids (enterNetwork name network gw parentId level size c) ∧
  Parented (enterNetwork name network gw parentId level size c).
Proof.
  intros Hpar Hc. unfold enterNetwork.
  apply Parented_emitDevices; apply Parented_emitGateway.
  - ids_solve.
  - parented_step. apply Parented_pushNetwork; [done| |done].
    intros p Hp. cbn in Hp. by apply Hpar.
  - ids_solve.
  - parented_step. apply Parented_pushNetwork; [done| |done].
    intros p Hp. cbn in Hp. by apply Hpar.
Qed.

Lemma ids_enterNetwork_mono name network gw parentId level size c x :
  x ∈ ids c → x ∈ ids (enterNetwork name network gw parentId level size c).
Proof.
  intros Hx. unfold enterNetwork, emitDevices, emitGateway, recordRouterDiversion.
  assert (Hreg : ∀ nid g count devs s, x ∈ ids s →
            x ∈ ids (forEach (regularDevice name nid g size count) devs s)).
  { intros nid g count devs s Hs. apply (forEach_inv (λ u, x ∈ ids u)); [|done].
    intros. by apply ids_regularDevice_mono. }
  assert (Hrou : ∀ nid g devs s, x ∈ ids s →
            x ∈ ids (forEach (routerDevice name nid g) devs s)).
  { intros nid g devs s Hs. apply (forEach_inv (λ u, x ∈ ids u)); [|done].
    intros. by apply ids_routerDevice_mono. }
  repeat case_match; try apply Hrou; try apply Hreg; repeat ids_step;
    try apply ids_foldl_gatewayUplink; repeat ids_step; done.
Qed.

Lemma ids_placeChild name child x c : ids (placeChild name child x c) = ids c.
Proof.
  unfold placeChild. repeat case_match; try done; by rewrite ?ids_pushEdge, ?ids_updateNode.
Qed.

Lemma ids_createNetworkNode_mono privateNetworks t fuel name data index parentId level c c' x :
  x ∈ ids c →
  createNetworkNode privateNetworks t fuel name data index parentId level c = Ok c' →
  x ∈ ids c'.
Proof.
  apply (createNetworkNode_inv privateNetworks t (λ _ _ _, True) (λ s, x ∈ ids s));
    [| |intros; by rewrite ids_placeChild|done].
  - intros. by apply ids_enterNetwork_mono.
  - done.
Qed.

Lemma Parented_placeChild name child x c : Parented c → Parented (placeChild name child x c).
Proof. intros Hc. unfold placeChild. parented_auto. Qed.

Lemma Parented_createNetworkNode privateNetworks t fuel :
  ∀ name data index parentId level c c',
    (∀ p, parentId = Some p → p ∈ ids c) → Parented c →
    createNetworkNode privateNetworks t fuel name data index parentId level c = Ok c' →
    Parented c'.
Proof.
  induction fuel as [|fuel IH]; intros name data index parentId level c c' Hpar Hc Hrun;
    [done|].
  cbn [createNetworkNode] in Hrun.
  destruct (maxSubnetDepth_cases privateNetworks t name) as [[d|] Hd];
    rewrite Hd in Hrun; cbn [from_option mbind Outcome_bind] in Hrun; [|done].
  destruct data as [network|]; [|done].
  destruct (gateway network) as [gw|] eqn:Hgw; [|done].
  destruct (Parented_enterNetwork name network gw parentId level
              (networkSizeOf t name level d) c Hpar Hc) as [Hin1 Hc1].
  destruct (childNetworksMap t !! name) as [children|]; [|by apply Ok_inj in Hrun; subst].
  revert Hrun.
  match goal with
  | |- forEachM ?f ?l ?s0 = Ok c' → _ =>
      intros Hrun;
      cut ("network-" +:+ name ∈ ids c' ∧ Parented c'); [by intros []|];
      revert Hrun;
      apply (forEachMFrom_inv (λ s, "network-" +:+ name ∈ ids s ∧ Parented s)); [|done]
  end.
  intros child i s s' _ [Hin Hs] Hstep.
  destruct (createNetworkNode _ _ fuel child _ i _ _ s) as [s1| |] eqn:Hrec; try done.
  cbn [mbind Outcome_bind] in Hstep. apply Ok_inj in Hstep. subst s'.
  split.
  - rewrite ids_placeChild. by eapply ids_createNetworkNode_mono.
  - apply Parented_placeChild. eapply IH; [|exact Hs|exact Hrec].
    by intros p [= <-].
Qed.

Lemma Parented_placeRoots privateNetworks t c c' :
  Parented c → placeRoots privateNetworks t c = Ok c' → Parented c'.
Proof.
  unfold placeRoots. apply foldM_inv.
  intros [name network] s s' _ Hs Hstep. unfold placeRoot in Hstep.
  destruct (isRoot t name); [|by apply Ok_inj in Hstep; subst].
  destruct (createNetworkNode _ _ _ _ _ _ _ _ s) as [s1| |] eqn:Hrec; try done.
  cbn [mbind Outcome_bind] in Hstep. apply Ok_inj in Hstep. subst s'.
  parented_step. eapply Parented_createNetworkNode; [|exact Hs|exact Hrec].
  by intros p [=].
Qed.

Lemma Parented_inferredInterfacePass privateNetworks t c c' :
  Parented c → inferredInterfacePass privateNetworks t c = Ok c' → Parented c'.
Proof.
  unfold inferredInterfacePass. apply foldM_inv.
  intros [name network] s s' _ Hs Hstep. unfold inferredInterfaces in Hstep.
  destruct (isRoot t name); [|by injection Hstep as <-].
  destruct (gateway network) as [gw|]; [|done].
  destruct (gw_interfaces gw) as [intfs|]; [|by injection Hstep as <-].
  injection Hstep as <-.
  apply (foldl_inv Parented); [|done].
  intros intf u _ Hu. unfold inferredInterface. parented_auto.
Qed.

Lemma Parented_reparent ti ii internal f c :
  networkNodes c !! "test_network" = Some ti →
  processedNodes c !! ii = Some internal →
  (∀ n, n_id (f n) = n_id n ∧ n_parentId (f n) = Some (n_id internal)) →
  Parented c → Parented (updateNode ti f c).
Proof.
  intros Hti Hii Hf Hc. destruct (parented_index c Hc _ _ Hti) as (test & Htest & Hid).
  destruct Hc as [Hp Hx]. split; ctx_simpl.
  - intros k n p Hk Hpar.
    apply lookup_alter_inv in Hk as (old & Hold & [->|[<- ->]]).
    + destruct (Hp _ _ _ Hold Hpar) as (j & m & Hj & Hm & Hlt).
      destruct (lookup_alter_id f ti _ j m (λ x, proj1 (Hf x)) Hj) as (m' & Hj' & Hid').
      exists j, m'. split; [done|]. split; [congruence|done].
    + destruct (Hf old) as [Hfid Hfpar]. rewrite Hfpar in Hpar. injection Hpar as <-.
      destruct (lookup_alter_id f ti _ ii internal (λ x, proj1 (Hf x)) Hii)
        as (m' & Hj' & Hid').
      exists ii, m'. split; [done|]. split; [done|].
      rewrite Hfid. rewrite Hold in Htest. injection Htest as ->. by rewrite Hid.
  - intros name j Hj. destruct (Hx name j Hj) as (m & Hm & Hid').
    destruct (lookup_alter_id f ti _ j m (λ x, proj1 (Hf x)) Hm) as (m' & Hj' & Hid'').
    exists m'. split; [done|congruence].
Qed.

Lemma Parented_nestTestNetwork c : Parented c → Parented (nestTestNetwork c).
Proof.
  intros Hc. unfold nestTestNetwork.
  destruct (networkNodes c !! "test_network") as [ti|] eqn:Hti; [|done].
  destruct (networkNodes c !! "internal_network") as [ii|] eqn:Hii; [|done].
  destruct (processedNodes c !! ti) as [test|] eqn:Htest; [|done].
  destruct (processedNodes c !! ii) as [internal|] eqn:Hint; [|done].
  destruct (n_style internal) as [sz|].
  - destruct (lookup_alter_id (setStyle (Some
        {| width := Qmax (width sz)
                      (match n_style test with
                       | Some tsz => if Qeq_bool (width tsz) 0 then 450%Q else width tsz
                       | None => 450%Q
                       end + 200);
           height := Qmax (height sz) 650 |})) ii _ ii internal (λ _, eq_refl) Hint)
      as (internal' & Hint' & Hid').
    eapply (Parented_reparent ti ii internal'); [done|exact Hint'| |by parented_step].
    intros n. split; [done|]. cbn. by rewrite Hid'.
  - by eapply (Parented_reparent ti ii internal).
Qed.

Lemma Parented_stitch c :
  Parented c →
  Parented (specialConnections (deviceDiversionPass (routerDiversionPass
              (internalTestEdge (cloudInternalEdge c))))).
Proof.
  intros Hc.
  assert (H1 : Parented (cloudInternalEdge c))
    by (unfold cloudInternalEdge; parented_auto).
  assert (H2 : Parented (internalTestEdge (cloudInternalEdge c)))
    by (unfold internalTestEdge; parented_auto).
  assert (H3 : ∀ s, Parented s → Parented (routerDiversionPass s)).
  { intros s Hs. unfold routerDiversionPass. apply (foldl_inv Parented); [|done].
    intros rd u _ Hu. unfold routerDiversionStep. parented_auto. }
  assert (H4 : ∀ s, Parented s → Parented (deviceDiversionPass s)).
  { intros s Hs. unfold deviceDiversionPass. apply (foldl_inv Parented); [|done].
    intros n u _ Hu. unfold deviceDiversion.
    repeat case_match; repeat parented_step; try done.
    apply (forEach_inv Parented); [|done].
    intros x i v _ Hv. unfold cdnRegular. parented_auto. }
  assert (H5 : ∀ s, Parented s → Parented (specialConnections s))
    by (intros s Hs; unfold specialConnections; parented_auto).
  by apply H5, H4, H3.
Qed.

Lemma Parented_cdnBlocks now c : Parented c → Parented (cdnBlocks now c).
Proof.
  intros Hc. unfold cdnBlocks.
  assert (H1 : ∀ s, Parented s → Parented (ubuntuCdnBlock s)).
  { intros s Hs. unfold ubuntuCdnBlock. repeat case_match; try done.
    parented_step. apply (foldl_inv Parented); [intros; by parented_step|].
    apply (forEach_inv Parented); [intros; by parented_step|]. by parented_step. }
  assert (H2 : ∀ s, Parented s → Parented (cdnTestBlock now s)).
  { intros s Hs. unfold cdnTestBlock. repeat case_match; try done.
    apply (forEach_inv Parented); [intros; by repeat parented_step|]. by parented_step. }
  assert (H3 : ∀ sources s, Parented s → Parented (cdnFinalPass sources s)).
  { intros sources s Hs. unfold cdnFinalPass. case_match; [done|].
    apply (foldl_inv Parented).
    - intros [si sn] u _ Hu. unfold cdnFinalSource. repeat case_match; try done.
      apply (forEach_inv Parented); [|done].
      intros x i v _ Hv. unfold cdnFinalTarget. parented_auto.
    - unfold cdnFinalUbuntu. repeat case_match; try done.
      apply (forEach_inv Parented); [|done]. intros x i v _ Hv. parented_auto. }
  assert (H4 : ∀ s, Parented s → Parented (staticCdnBlock s)).
  { intros s Hs. unfold staticCdnBlock. repeat case_match; try done.
    apply (forEach_inv Parented); [|done]. intros x i v _ Hv. parented_auto. }
  assert (H5 : ∀ s, Parented s → Parented (widenHomeServerNetwork s)).
  { intros s Hs. unfold widenHomeServerNetwork. case_match; [|done].
    apply Parented_updateNode; [|done]. intros m. by case_match. }
  by apply H5, H4, H3, H2, H1.
Qed.

Lemma Parented_synthesize config now c : synthesize config now = Ok c → Parented c.
Proof.
  unfold synthesize, emitStructure.
  pose proof (Parented_asPass (autonomous_systems config) _ Parented_initialCtx) as H0.
  destruct (placeRoots _ _ _) as [c1| |] eqn:H1; try done.
  apply Parented_placeRoots in H1; [|done].
  cbn [mbind Outcome_bind].
  destruct (inferredInterfacePass _ _ c1) as [c2| |] eqn:H2; try done.
  apply Parented_inferredInterfacePass in H2; [|done].
  cbn [mbind Outcome_bind]. intros <-%Ok_inj.
  by apply Parented_cdnBlocks, Parented_stitch, Parented_nestTestNetwork.
Qed.

(** X11: in every list of nodes the hook returns, a parent reference
    names a node of the list, and that node comes earlier in the list
    than the node that refers to it, unless the referring node is the
    container of [test_network] (which the name-literal fix-up hangs
    under a container that may come later). *)
Theorem parents_precede (config : NetworkConfig) (now : nat → N)
    (r : NetworkDataResult) (i : nat) (n : Node) (p : string) :
  useNetworkData config now = Some r →
  nodes r !! i = Some n → n_parentId n = Some p →
  ∃ j m, nodes r !! j = Some m ∧ n_id m = p ∧
         (n_id n ≠ "network-test_network" → j < i).
Proof.
  intros Hrun Hi Hp. unfold useNetworkData in Hrun.
  destruct (synthesize config now) as [c| |] eqn:Hsyn; [| |done].
  - injection Hrun as <-. cbn [nodes] in *.
    by apply (parented_nodes c (Parented_synthesize _ _ _ Hsyn) i n p).
  - injection Hrun as <-. done.
Qed.

Lemma parents_precede_witness :
  ∃ r n j m,
    useNetworkData networkConfig (constantClock 0) = Some r ∧
    nodes r !! 19 = Some n ∧
    nodes r !! j = Some m ∧ n_id m = "network-home_server_network" ∧
    (n_id n ≠ "network-test_network" → j < 19).
Proof.
  eexists _, _.
  destruct (parents_precede networkConfig (constantClock 0) _ 19 _
              "network-home_server_network" ltac:(by vm_compute) ltac:(by vm_compute)
              ltac:(by vm_compute)) as (j & m & Hj & Hm & Hlt).
  exists j, m. split; [by vm_compute|]. split; [by vm_compute|]. done.
Defined.

(** ** Which networks are drawn *)

Lemma ids_Flagged (ns ns' : list Node) : Forall2 flagged ns ns' → n_id <$> ns' = n_id <$> ns.
Proof.
  induction 1 as [|n n' ns ns' (Hid & _) _ IH]; [done|]. cbn. by rewrite Hid, IH.
Qed.

Lemma ids_nestTestNetwork c : ids (nestTestNetwork c) = ids c.
Proof.
  unfold nestTestNetwork. repeat case_match; try done; by rewrite !ids_updateNode.
Qed.

(** After the roots are placed no pass adds or removes a node. *)
Lemma ids_synthesize config now c :
  synthesize config now = Ok c →
  ∃ c1, placeRoots (private config) (resolveTopology (private config))
          (asPass (autonomous_systems config) initialCtx) = Ok c1 ∧
        ids c = ids c1.
Proof.
  unfold synthesize, emitStructure.
  destruct (placeRoots _ _ _) as [c1| |] eqn:H1; try done. cbn [mbind Outcome_bind].
  destruct (inferredInterfacePass _ _ c1) as [c2| |] eqn:H2; try done.
  cbn [mbind Outcome_bind]. intros <-%Ok_inj. exists c1. split; [done|].
  destruct (inferredInterfacePass_spec _ _ _ _ H2) as [Hn _].
  unfold ids at 1. rewrite (ids_Flagged _ _ (Flagged_cdnBlocks now _)).
  destruct (appends_stitch (nestTestNetwork c2)) as [-> _].
  fold (ids (nestTestNetwork c2)). rewrite ids_nestTestNetwork. unfold ids. by rewrite Hn.
Qed.














Lemma idsBelow_createNetworkNode privateNetworks t fuel name data index parentId level c c' :
  createNetworkNode privateNetworks t fuel name data index parentId level c = Ok c' →
  idsBelow c c'.
Proof. intros Hrun x Hx. by eapply ids_createNetworkNode_mono. Qed.






(** ** Layout of the backbone groups *)







Lemma forEachFrom_pushesNode {A} (f : A → nat → Ctx → Ctx) (g : nat → A → Node) xs :
  (∀ x i s, processedNodes (f x i s) = processedNodes s ++ [g i x]) →
  ∀ i s, processedNodes (forEachFrom f i xs s) =
         processedNodes s ++ imap (λ j, g (i + j)) xs.
Proof.
  intros Hf. induction xs as [|x xs IH]; intros i s; cbn [forEachFrom imap].
  - by rewrite app_nil_r.
  - rewrite IH, Hf, <- app_assoc. cbn. rewrite Nat.add_0_r. do 2 f_equal.
    apply imap_ext. intros j y _. cbn. f_equal. lia.
Qed.

Lemma num_pred n : 0 < n → (num (n - 1) == num n - 1)%Q.
Proof.
  intros Hn. unfold num. rewrite Nat2Z.inj_sub by lia.
  unfold Z.sub. rewrite inject_Z_plus, inject_Z_opp. reflexivity.
Qed.

(** The arithmetic of a row of devices in a group of [n] devices. *)
Lemma asRow_fits n j :
  j < n → n ≤ 5 →
  let w := Qmax (width (calculateGroupSize n false 0 0 true)) (num n * 120 + 60) in
  (25 + num j * Qmin 200 (Qmax 150 (w / num (n + 1))) + deviceNodeWidth <= w)%Q.
Proof.
  intros Hj Hn.
  do 6 (destruct n as [|n]; [
    do 5 (destruct j as [|j]; [first [lia | apply Qle_bool_imp_le; by vm_compute]|]); lia|]).
  lia.
Qed.

Lemma asRow_overflows n spacing :
  6 ≤ n → (150 <= spacing)%Q →
  let w := Qmax (width (calculateGroupSize n false 0 0 true)) (num n * 120 + 60) in
  (w < 25 + num (n - 1) * spacing + deviceNodeWidth)%Q.
Proof.
  intros Hn Hs w.
  assert (Hn6 : (6 <= num n)%Q) by (change 6%Q with (num 6); by apply num_le).
  pose proof (num_pred n ltac:(lia)) as Hpred.
  assert (Hlo : (25 + (num n - 1) * 150 + 130 <= 25 + num (n - 1) * spacing + deviceNodeWidth)%Q).
  { rewrite Hpred. unfold deviceNodeWidth. nra. }
  eapply Qlt_le_trans; [|exact Hlo]. unfold w, calculateGroupSize. cbn [Nat.ltb Nat.leb width].
  assert (Hcols : gridCols n = 4) by (unfold gridCols, devicesPerRow; lia).
  rewrite Hcols. change (num 4) with 4%Q. cbn [baseWidth widthPerDevice].
  apply Q.max_lub_lt; [apply Q.max_lub_lt|]; lra.
Qed.

(** X14: inside a backbone group the devices stand in one row at
    height 100, the [j]-th at x = 25 + j s for a spacing s between 150
    and 200, wider than the 130 a device box is drawn with, so the boxes
    never overlap; with up to five devices every box lies within the
    width of the group, and from six devices on the last box sticks out
    beyond its right edge. *)
Theorem as_devices_in_group (asCount : nat) (as_ : AutonomousSystem) (asIndex : nat)
    (x : Q) (c : Ctx) :
  let c' := (asGroup asCount as_ asIndex (x, c)).2 in
  let n := length (as_devices as_) in
  let asId := "as-" +:+ as_number as_ in
  ∃ g sz spacing,
    processedNodes c' !! length (processedNodes c) = Some g ∧
    n_id g = asId ∧ n_style g = Some sz ∧
    (150 <= spacing)%Q ∧ (spacing <= 200)%Q ∧
    ∀ j d, as_devices as_ !! j = Some d →
      ∃ m, processedNodes c' !! (length (processedNodes c) + 1 + j) = Some m ∧
           n_id m = "device-" +:+ as_number as_ +:+ "-" +:+ dev_name d ∧
           n_parentId m = Some asId ∧
           n_position m = (25 + num j * spacing, 100)%Q ∧
           (n ≤ 5 → ((n_position m).1 + deviceNodeWidth <= width sz)%Q) ∧
           (6 ≤ n → j = n - 1 → (width sz < (n_position m).1 + deviceNodeWidth)%Q).
Proof.
  intros c' n asId.
  set (w := Qmax (width (calculateGroupSize n false 0 0 true)) (num n * 120 + 60)).
  set (spacing := Qmin 200 (Qmax 150 (w / num (n + 1)))).
  set (asCloudId := if String.eqb (orElse (network_type as_)
                          (if (asIndex =? 0)%nat then "domestic" else "international"))
                         "domestic"
                    then inwallsCloudId else globalCloudId).
  set (devNode := λ (j : nat) (d : Device),
         {| n_id := "device-" +:+ as_number as_ +:+ "-" +:+ dev_name d; n_type := deviceNode;
            n_data := mkData (dev_name d) (dev_diversion d);
            n_position := ((25 + num j * spacing)%Q, 100%Q);
            n_style := None;
            n_parentId := Some asId; n_extent := Some "parent" |}).
  set (g := {| n_id := asId; n_type := group;
               n_data := mkData (as_number as_) None;
               n_position := (x, 280%Q);
               n_style := Some {| width := w;
                                  height := height (calculateGroupSize n false 0 0 true) |};
               n_parentId := None; n_extent := None |}).
  assert (Hnodes : processedNodes c' =
                   (processedNodes c ++ [g]) ++ imap devNode (as_devices as_)).
  { unfold c', asGroup. cbn [snd]. unfold forEach.
    rewrite (forEachFrom_pushesNode _ devNode); [done|].
    intros d i s. unfold asDevice. repeat case_match; by ctx_simpl. }
  assert (Hlo : (150 <= spacing)%Q) by (apply Q.min_glb; [done|apply Q.le_max_l]).
  exists g, {| width := w; height := height (calculateGroupSize n false 0 0 true) |}, spacing.
  split_and!; [|done|done|done|apply Q.le_min_l|].
  - rewrite Hnodes, <- app_assoc. by rewrite lookup_app_r, Nat.sub_diag.
  - intros j d Hd. exists (devNode j d). split_and!; [|done|done|done| |].
    + rewrite Hnodes, lookup_app_r by (rewrite length_app; cbn; lia).
      rewrite length_app. cbn [length].
      replace (length (processedNodes c) + 1 + j - (length (processedNodes c) + 1)) with j
        by lia.
      by rewrite list_lookup_imap, Hd.
    + intros Hn. cbn [n_position fst width]. apply asRow_fits; [|done].
      by eapply lookup_lt_Some.
    + intros Hn ->. cbn [n_position fst width]. by apply asRow_overflows.
Qed.

(** ** What reaches the canvas *)

Lemma hasEdges_pushEdge e c : hasEdges (pushEdge e c).
Proof. unfold hasEdges. ctx_simpl. by destruct (processedEdges c). Qed.

Lemma hasEdges_same c c' : processedEdges c' = processedEdges c → hasEdges c → hasEdges c'.
Proof. unfold hasEdges. by intros ->. Qed.

Lemma hasEdges_alter f i c : hasEdges c → hasEdges (withEdges (alter f i) c).
Proof.
  unfold hasEdges. ctx_simpl. intros Hc He. apply Hc.
  apply (f_equal length) in He. rewrite length_alter in He. by apply nil_length_inv.
Qed.

Lemma hasEdges_insert e i c : hasEdges c → hasEdges (withEdges <[i := e]> c).
Proof.
  unfold hasEdges. ctx_simpl. intros Hc He. apply Hc.
  apply (f_equal length) in He. rewrite length_insert in He. by apply nil_length_inv.
Qed.

Ltac edges_step :=
  lazymatch goal with
  | |- hasEdges (pushEdge _ _) => apply hasEdges_pushEdge
  | |- hasEdges (withEdges (alter _ _) _) => apply hasEdges_alter
  | |- hasEdges (withEdges (insert _ _) _) => apply hasEdges_insert
  | |- hasEdges (pushNode _ ?c) => apply (hasEdges_same c); [reflexivity|]
  | |- hasEdges (updateNode _ _ ?c) => apply (hasEdges_same c); [reflexivity|]
  | |- hasEdges (withNodeIdMap _ ?c) => apply (hasEdges_same c); [reflexivity|]
  | |- hasEdges (withHandled _ ?c) => apply (hasEdges_same c); [reflexivity|]
  | |- hasEdges (withStartX _ ?c) => apply (hasEdges_same c); [reflexivity|]
  | |- hasEdges (withRouterIds _ ?c) => apply (hasEdges_same c); [reflexivity|]
  | |- hasEdges (withGatewayIds _ ?c) => apply (hasEdges_same c); [reflexivity|]
  | |- hasEdges (withNetworkNodes _ ?c) => apply (hasEdges_same c); [reflexivity|]
  | |- hasEdges (withRouterDiversions _ ?c) => apply (hasEdges_same c); [reflexivity|]
  end.

Ltac edges_auto := repeat case_match; repeat edges_step; try done.

Lemma hasEdges_asPass asGroups c : hasEdges c → hasEdges (asPass asGroups c).
Proof.
  intros Hc. unfold asPass.
  apply (forEach_inv (λ xc : Q * Ctx, hasEdges xc.2)); [|done].
  intros as_ i [x s] _ Hs. unfold asGroup. cbn [snd] in *.
  apply forEach_inv; [|edges_auto].
  intros device j u _ Hu. unfold asDevice. edges_auto.
Qed.

Lemma hasEdges_enterNetwork name network gw parentId level size c :
  hasEdges c → hasEdges (enterNetwork name network gw parentId level size c).
Proof.
  intros Hc. unfold enterNetwork, emitDevices, emitGateway, recordRouterDiversion.
  assert (Hfold : ∀ g intfs s, hasEdges s → hasEdges (foldl (gatewayUplink g) s intfs)).
  { intros g intfs. apply foldl_inv. intros intf s _ Hs. unfold gatewayUplink. edges_auto. }
  assert (Hreg : ∀ nid g count devs s, hasEdges s →
            hasEdges (forEach (regularDevice name nid g size count) devs s)).
  { intros nid g count devs s Hs. apply (forEach_inv hasEdges); [|done].
    intros d i u _ Hu. unfold regularDevice, upgradeDeviceEdge. edges_auto. }
  assert (Hrou : ∀ nid g devs s, hasEdges s →
            hasEdges (forEach (routerDevice name nid g) devs s)).
  { intros nid g devs s Hs. apply (forEach_inv hasEdges); [|done].
    intros d i u _ Hu. unfold routerDevice. edges_auto. }
  repeat case_match; try apply Hrou; try apply Hreg; repeat edges_step;
    try apply Hfold; repeat edges_step; try done.
Qed.

Lemma hasEdges_placeRoots privateNetworks t c c' :
  hasEdges c → placeRoots privateNetworks t c = Ok c' → hasEdges c'.
Proof.
  apply (placeRoots_inv privateNetworks t (λ _ _ _, True)); try done.
  - intros. by apply hasEdges_enterNetwork.
  - intros name child x s Hs. unfold placeChild. edges_auto.
Qed.

Lemma hasEdges_appends c c' : appends c c' → hasEdges c → hasEdges c'.
Proof.
  intros [_ [new He]]. unfold hasEdges. rewrite He. by destruct (processedEdges c).
Qed.

Lemma imap_nil_inv {A B} (f : nat → A → B) (l : list A) : imap f l = [] → l = [].
Proof. by destruct l. Qed.

Lemma hasEdges_cdnBlocks now c : hasEdges c → hasEdges (cdnBlocks now c).
Proof.
  intros Hc. unfold cdnBlocks.
  assert (H1 : ∀ s, hasEdges s → hasEdges (ubuntuCdnBlock s)).
  { intros s Hs. unfold ubuntuCdnBlock.
    destruct (findById ubuntuId s) as [[ui u]|]; [|done].
    destruct (cdnTargets _); [|done]. case_bool_decide as Ho; [done|].
    edges_step.
    apply (foldl_inv hasEdges); [intros; by edges_step|].
    unfold hasEdges, forEach.
    rewrite (forEachFrom_pushes _ (λ index (oracle : nat * Node),
               cdnEdge ("edge-cdn-direct-" +:+ n_id u +:+ "-" +:+ n_id oracle.2
                          +:+ "-" +:+ pretty index)
                 (n_id u) (n_id oracle.2) bezier greyStyle None)); [|done].
    by intros [_ Hnil%imap_nil_inv]%app_eq_nil. }
  assert (H2 : ∀ s, hasEdges s → hasEdges (cdnTestBlock now s)).
  { intros s Hs. unfold cdnTestBlock.
    destruct (findById ubuntuId s) as [[ui u]|]; [|done].
    case_bool_decide as Ho; [done|].
    unfold hasEdges, forEach.
    rewrite (forEachFrom_pushes _ (λ index (oracle : nat * Node),
               testEdge now (n_id u) (n_id oracle.2) index)); [|by intros; ctx_simpl].
    by intros [_ Hnil%imap_nil_inv]%app_eq_nil. }
  assert (H3 : ∀ sources s, hasEdges s → hasEdges (cdnFinalPass sources s)).
  { intros sources s Hs. unfold cdnFinalPass. case_match; [done|].
    apply (foldl_inv hasEdges).
    - intros [si sn] u _ Hu. unfold cdnFinalSource. repeat case_match; try done.
      apply (forEach_inv hasEdges); [|done].
      intros x i v _ Hv. unfold cdnFinalTarget. edges_auto.
    - unfold cdnFinalUbuntu. repeat case_match; try done.
      apply (forEach_inv hasEdges); [|done]. intros x i v _ Hv. edges_auto. }
  assert (H4 : ∀ s, hasEdges s → hasEdges (staticCdnBlock s)).
  { intros s Hs. unfold staticCdnBlock. repeat case_match; try done.
    apply (forEach_inv hasEdges); [|done]. intros x i v _ Hv. edges_auto. }
  assert (H5 : ∀ s, hasEdges s → hasEdges (widenHomeServerNetwork s)).
  { intros s Hs. unfold widenHomeServerNetwork. case_match; [|done]. by edges_step. }
  by apply H5, H4, H3, H2, H1.
Qed.

Lemma hasEdges_synthesize config now c : synthesize config now = Ok c → hasEdges c.
Proof.
  unfold synthesize, emitStructure.
  assert (H0 : hasEdges (asPass (autonomous_systems config) initialCtx))
    by (by apply hasEdges_asPass).
  destruct (placeRoots _ _ _) as [c1| |] eqn:H1; try done.
  apply hasEdges_placeRoots in H1; [|done].
  cbn [mbind Outcome_bind].
  destruct (inferredInterfacePass _ _ c1) as [c2| |] eqn:H2; try done.
  destruct (inferredInterfacePass_spec _ _ _ _ H2) as [_ He].
  cbn [mbind Outcome_bind]. intros <-%Ok_inj.
  apply hasEdges_cdnBlocks. eapply hasEdges_appends; [apply appends_stitch|].
  assert (Hc2 : hasEdges c2).
  { unfold hasEdges in *. rewrite He. by destruct (processedEdges c1). }
  unfold nestTestNetwork. edges_auto.
Qed.

Lemma ids_asPass_mono asGroups c x : x ∈ ids c → x ∈ ids (asPass asGroups c).
Proof.
  intros Hc. unfold asPass.
  apply (forEach_inv (λ xc : Q * Ctx, x ∈ ids xc.2)); [|done].
  intros as_ i [x0 s] _ Hs. unfold asGroup. cbn [snd] in *.
  apply (forEach_inv (λ u, x ∈ ids u)); [|ids_solve].
  intros. by apply ids_asDevice_mono.
Qed.

Lemma clouds_synthesize config now c :
  synthesize config now = Ok c → inwallsCloudId ∈ ids c.
Proof.
  intros (c1 & H1 & ->)%ids_synthesize. revert H1.
  apply (placeRoots_inv _ _ (λ _ _ _, True) (λ s, inwallsCloudId ∈ ids s)); try done.
  - intros. by apply ids_enterNetwork_mono.
  - intros. by rewrite ids_placeChild.
  - apply ids_asPass_mono, list_elem_of_here.
Qed.

(** X15: whenever the hook completes without an error, both lists it
    returns are non-empty (the clouds and at least one edge are always
    there), so the canvas takes over exactly the nodes and edges of the
    hook and renders the flow; whenever the hook fails, the canvas keeps
    the lists it had and the error pane is rendered with the message. *)
Theorem canvas_shows_result (config : NetworkConfig) (now : nat → N)
    (r : NetworkDataResult) (cv : Canvas) :
  useNetworkData config now = Some r →
  match error r with
  | None =>
      nodes r ≠ [] ∧ edges r ≠ [] ∧
      render r (receive r cv) =
        FlowView {| shownNodes := nodes r; shownEdges := edges r |}
  | Some e => receive r cv = cv ∧ render r (receive r cv) = ErrorView e
  end.
Proof.
  unfold useNetworkData.
  destruct (synthesize config now) as [c| |] eqn:Hsyn; [| |done]; intros [= <-]; cbn.
  - pose proof (hasEdges_synthesize _ _ _ Hsyn) as He.
    pose proof (clouds_synthesize _ _ _ Hsyn) as Hn.
    assert (Hne : processedNodes c ≠ []).
    { intros E. unfold ids in Hn. rewrite E in Hn. by apply elem_of_nil in Hn. }
    unfold hasEdges in He. split_and!; [done|done|].
    unfold render, receive. cbn. by destruct (processedNodes c), (processedEdges c).
  - by destruct cv.
Qed.

Lemma canvas_shows_result_witness :
  receive {| nodes := []; edges := []; isLoading := false; error := Some typeError |}
    {| shownNodes := cloudNodes; shownEdges := [] |}
  = {| shownNodes := cloudNodes; shownEdges := [] |}.
Proof.
  pose proof (canvas_shows_result missingGateway (constantClock 0)
                {| nodes := []; edges := []; isLoading := false; error := Some typeError |}
                {| shownNodes := cloudNodes; shownEdges := [] |}
                ltac:(by vm_compute)) as [H _].
  exact H.
Defined.

(** ** The depth calculator on any children map *)

Lemma mathMax_ge (xs : list nat) x : x ∈ xs → x ≤ mathMax xs.
Proof.
  induction xs as [|y xs IH]; intros Hin; [by apply elem_of_nil in Hin|].
  change (mathMax (y :: xs)) with (Nat.max y (mathMax xs)).
  apply elem_of_cons in Hin as [->|Hin]; [lia|]. specialize (IH Hin). lia.
Qed.

Lemma mathMax_attained (xs : list nat) : xs ≠ [] → mathMax xs ∈ xs.
Proof.
  induction xs as [|y [|z xs] IH]; intros Hne; [done| |].
  - change (mathMax [y]) with (Nat.max y 0). rewrite Nat.max_0_r. apply list_elem_of_here.
  - change (mathMax (y :: z :: xs)) with (Nat.max y (mathMax (z :: xs))).
    destruct (Nat.max_spec y (mathMax (z :: xs))) as [[_ ->]|[_ ->]].
    + apply list_elem_of_further. by apply IH.
    + apply list_elem_of_here.
Qed.

(** X16: on any children map, when the depth calculator returns [d]
    for a network, [d] is the height of the tree below it: some chain of
    [d] steps from parent to child starts at the network, and no chain
    that starts there is longer. *)
Theorem depth_is_height (m : gmap string (list string)) (fuel : nat) (name : string)
    (d : nat) :
  calculateMaxNetworkDepth fuel name m = Some d →
  (∃ leaf, Descends m d name leaf) ∧
  (∀ k x, Descends m k name x → k ≤ d).
Proof.
  revert name d. induction fuel as [|fuel IH]; intros name d; [done|].
  cbn [calculateMaxNetworkDepth].
  destruct (m !! name) as [[|child rest]|] eqn:Hm.
  - intros [= <-]. split; [exists name; constructor|].
    intros k x Hk. inversion Hk as [|k' a b c children Hch Hin _]; subst; [done|].
    rewrite Hm in Hch. injection Hch as <-. by apply elem_of_nil in Hin.
  - destruct (mapM _ (child :: rest)) as [ds|] eqn:Hds; [|done].
    cbn [mbind option_bind]. intros [= <-].
    apply mapM_Some in Hds.
    assert (Hne : ds ≠ []) by (intros ->; by apply Forall2_length in Hds).
    split.
    + pose proof (mathMax_attained ds Hne) as Hmax.
      apply list_elem_of_lookup in Hmax as [i Hi].
      destruct (Forall2_lookup_r _ _ _ _ _ Hds Hi) as (b & Hb & Hcalc).
      destruct (calculateMaxNetworkDepth fuel b m) as [d'|] eqn:Hd'; [|done].
      cbn in Hcalc. injection Hcalc as Heq.
      destruct (IH b d' Hd') as [[leaf Hleaf] _]. exists leaf. rewrite <- Heq.
      econstructor; [exact Hm|by eapply list_elem_of_lookup_2|done].
    + intros k x Hk. inversion Hk as [|k' a b c children Hch Hin Hrest]; subst; [lia|].
      rewrite Hm in Hch. injection Hch as <-.
      apply list_elem_of_lookup in Hin as [i Hi].
      destruct (Forall2_lookup_l _ _ _ _ _ Hds Hi) as (y & Hy & Hcalc).
      destruct (calculateMaxNetworkDepth fuel b m) as [d'|] eqn:Hd'; [|done].
      cbn in Hcalc. injection Hcalc as Heq.
      destruct (IH b d' Hd') as [_ Hle]. specialize (Hle _ _ Hrest).
      pose proof (mathMax_ge ds y (list_elem_of_lookup_2 _ _ _ Hy)). lia.
  - intros [= <-]. split; [exists name; constructor|].
    intros k x Hk. inversion Hk as [|k' a b c children Hch Hin _]; subst; [done|].
    by rewrite Hm in Hch.
Qed.

Lemma depth_is_height_witness :
  (∃ leaf, Descends (<["a" := ["b"; "c"]]> (<["b" := ["d"]]> ∅)) 2 "a" leaf) ∧
  (∀ k x, Descends (<["a" := ["b"; "c"]]> (<["b" := ["d"]]> ∅)) k "a" x → k ≤ 2).
Proof.
  apply (depth_is_height _ 4 "a" 2). by vm_compute.
Defined.
